(** * Subtitle post-processing (scripts/postprocess.py): model and properties

    A shallow embedding of the caption post-processing script: the timestamp
    codec, the SRT parser, the caption merger and the transliteration
    selector.

    Modelling conventions.
    - A Python [str] is a list of Unicode code points ([N]).
    - A Python [float] holding a time in seconds is an exact rational ([Q]):
      the binary64 rounding of each operation is abstracted away, the
      operations themselves ([//], [%], [int], [round]) are the source's.
    - A function that can raise returns an [outcome]; [try/except] is a match
      on it.
    - The file read of [parse_srt_file] is the caller's: the function starts
      from the text that was read. *)

From Stdlib Require Import String Ascii.
From Stdlib Require Import List ZArith NArith QArith Qround Qabs Bool Lia Lqa.
Import ListNotations.

(** ** Python strings *)

Module PyStr.

Definition char := N.
Definition str := list char.

Definition ch (a : ascii) : char := N_of_ascii a.
Arguments ch a%_char.

(** A string literal of the source (ASCII only). *)
Definition lit (s : String.string) : str :=
  map ch (String.list_ascii_of_string s).
Arguments lit s%_string.

Definition comma : char := ch ",".
Definition period : char := ch ".".
Definition colon : char := ch ":".
Definition space : char := ch " ".
Definition newline : char := 10%N.
Definition underscore : char := ch "_".
Definition minus : char := ch "-".
Definition plus : char := ch "+".
Definition zero : char := ch "0".

(** [str.isspace] for one character, which is also the class [\s] of [re] on
    [str] patterns: CPython's [_PyUnicode_IsWhitespace]. *)
Definition isspace (c : char) : bool :=
  ((0x09 <=? c) && (c <=? 0x0D)
   || (0x1C <=? c) && (c <=? 0x20)
   || (c =? 0x85) || (c =? 0xA0) || (c =? 0x1680)
   || (0x2000 <=? c) && (c <=? 0x200A)
   || (c =? 0x2028) || (c =? 0x2029) || (c =? 0x202F)
   || (c =? 0x205F) || (c =? 0x3000))%N.

Fixpoint lstrip (s : str) : str :=
  match s with
  | c :: r => if isspace c then lstrip r else s
  | [] => []
  end.

Definition rstrip (s : str) : str := rev (lstrip (rev s)).

Definition strip (s : str) : str := rstrip (lstrip s).

(** [s.split(sep)] for a one-character separator: [k] occurrences of [sep]
    give [k + 1] parts, empty parts included. *)
Fixpoint split (sep : char) (s : str) : list str :=
  match s with
  | [] => [[]]
  | c :: r =>
      if (c =? sep)%N then [] :: split sep r
      else match split sep r with
           | p :: ps => (c :: p) :: ps
           | [] => [[c]]
           end
  end.

(** [sep.join(parts)]. *)
Fixpoint join (sep : str) (parts : list str) : str :=
  match parts with
  | [] => []
  | [p] => p
  | p :: ps => p ++ sep ++ join sep ps
  end.

(** [s.endswith((c1, c2, ...))] for one-character suffixes. *)
Definition endswith_any (cs : list char) (s : str) : bool :=
  match rev s with
  | c :: _ => existsb (N.eqb c) cs
  | [] => false
  end.

End PyStr.
Import PyStr.

(** ** Raising and returning *)

(** The exceptions of the script, all subclasses of [Exception]:
    [ValueError] from [int] and from tuple unpacking, and whatever the
    transliteration library raises. *)
Inductive exn : Type :=
| ValueError
| LibraryError.

Inductive outcome (A : Type) : Type :=
| Returned (a : A)
| Raised (e : exn).
Arguments Returned {A} a.
Arguments Raised {A} e.

Definition bind {A B} (m : outcome A) (k : A -> outcome B) : outcome B :=
  match m with
  | Returned a => k a
  | Raised e => Raised e
  end.

Notation "x <- m ;; k" := (bind m (fun x => k))
  (at level 61, m at next level, right associativity).

Definition raises {A} (m : outcome A) : Prop := exists e, m = Raised e.

(** ** Numbers *)

Section Numbers.

(** The decimal value of a character of category Nd (CPython's Unicode
    database, which [int] consults); [None] for every other character. *)
Variable decimal : char -> option N.

(** The digits of an [int] literal in base 10: a non-empty run of decimal
    characters, single underscores allowed between two of them. *)
Fixpoint int_digits (acc : N) (after_digit : bool) (s : str) : option N :=
  match s with
  | [] => if after_digit then Some acc else None
  | c :: r =>
      if (c =? underscore)%N then
        if after_digit then int_digits acc false r else None
      else match decimal c with
           | Some d => int_digits (10 * acc + d) true r
           | None => None
           end
  end.

(** [int(s)] for a string: surrounding whitespace is dropped, one sign is
    allowed, anything else raises [ValueError]. The interpreter's cap on the
    number of digits of a literal is not modelled. *)
Definition py_int (s : str) : outcome Z :=
  let body := strip s in
  let '(neg, ds) :=
    match body with
    | c :: r => if (c =? minus)%N then (true, r)
                else if (c =? plus)%N then (false, r)
                else (false, body)
    | [] => (false, body)
    end in
  match int_digits 0 false ds with
  | Some n => Returned (if neg then (- Z.of_N n)%Z else Z.of_N n)
  | None => Raised ValueError
  end.

End Numbers.

(** The ASCII part of the decimal table. *)
Definition ascii_decimal (c : char) : option N :=
  if ((48 <=? c) && (c <=? 57))%N then Some (c - 48)%N else None.

(** The decimal digits of a natural number, most significant first. *)
Fixpoint digits_aux (fuel : nat) (n : N) (acc : str) : str :=
  match fuel with
  | O => acc
  | S f =>
      let acc' := (zero + n mod 10)%N :: acc in
      if (n <? 10)%N then acc' else digits_aux f (n / 10)%N acc'
  end.

Definition digits (n : N) : str :=
  digits_aux (S (N.to_nat (N.log2 n))) n [].

(** [f"{z:0<width>d}"]: sign-aware zero padding to at least [width]
    characters. *)
Definition format_d (width : nat) (z : Z) : str :=
  let ds := digits (Z.abs_N z) in
  if (z <? 0)%Z then minus :: repeat zero (width - 1 - length ds) ++ ds
  else repeat zero (width - length ds) ++ ds.

(** [x // y] on floats. *)
Definition floordiv (x y : Q) : Q := inject_Z (Qfloor (x / y)%Q).

(** [x % y] on floats: the remainder has the sign of [y]. *)
Definition fmod (x y : Q) : Q := (x - y * floordiv x y)%Q.

(** [int(x)] for a float: truncation towards zero. *)
Definition int_of_float (x : Q) : Z :=
  if Qle_bool 0 x then Qfloor x else Qceiling x.

(** [round(x)] for a float: to the nearest integer, halves to even. *)
Definition py_round (x : Q) : Z :=
  let f := Qfloor x in
  let d := (x - inject_Z f)%Q in
  match (d ?= 1 # 2)%Q with
  | Lt => f
  | Gt => (f + 1)%Z
  | Eq => if Z.even f then f else (f + 1)%Z
  end.

(** ** Timestamp codec *)

Section Codec.

Variable decimal : char -> option N.

Definition parse_srt_timestamp (ts : str) : outcome Q :=
  match split comma ts with
  | [time_part; ms_part] =>
      match split colon time_part with
      | [hf; mf; sf] =>
          h <- py_int decimal hf ;;
          m <- py_int decimal mf ;;
          s <- py_int decimal sf ;;
          ms <- py_int decimal ms_part ;;
          Returned (inject_Z (h * 3600 + m * 60 + s) + inject_Z ms / 1000)%Q
      | _ => Raised ValueError
      end
  | _ => Raised ValueError
  end.

End Codec.

Definition format_timestamp (sep : char) (seconds : Q) : str :=
  let h := int_of_float (floordiv seconds 3600) in
  let m := int_of_float (floordiv (fmod seconds 3600) 60) in
  let s := int_of_float (fmod seconds 60) in
  let ms := py_round ((seconds - inject_Z (int_of_float seconds)) * 1000)%Q in
  format_d 2 h ++ colon :: format_d 2 m ++ colon :: format_d 2 s
    ++ sep :: format_d 3 ms.

Definition format_srt_timestamp (seconds : Q) : str :=
  format_timestamp comma seconds.

Definition format_vtt_timestamp (seconds : Q) : str :=
  format_timestamp period seconds.

(** ** Caption parser *)

Record segment : Type := mkSegment {
  start : Q;
  end_ : Q;
  text : str
}.

Definition cons_first (c : char) (pieces : list str) : list str :=
  match pieces with
  | p :: ps => (c :: p) :: ps
  | [] => [[c]]
  end.

(** [re.split(r'\n\n+', s)]: the pieces between the maximal runs of two or
    more newlines. [in_sep] holds while such a run is being consumed. *)
Fixpoint re_split_blank (in_sep : bool) (s : str) : list str :=
  match s with
  | [] => [[]]
  | c :: r =>
      if in_sep && (c =? newline)%N then re_split_blank true r
      else match r with
           | c2 :: r2 =>
               if (c =? newline)%N && (c2 =? newline)%N
               then [] :: re_split_blank true r2
               else cons_first c (re_split_blank false r)
           | [] => cons_first c (re_split_blank false r)
           end
  end.

(** The longest prefix of [s] whose characters satisfy [p], and the rest. *)
Fixpoint span (p : char -> bool) (s : str) : str * str :=
  match s with
  | c :: r => if p c then let '(a, b) := span p r in (c :: a, b) else ([], s)
  | [] => ([], [])
  end.

Fixpoint strip_prefix (pre s : str) : option str :=
  match pre, s with
  | [], _ => Some s
  | a :: pre', c :: r => if (a =? c)%N then strip_prefix pre' r else None
  | _ :: _, [] => None
  end.

Definition nonempty (s : str) : bool :=
  match s with [] => false | _ :: _ => true end.

Definition nonspace (c : char) : bool := negb (isspace c).

(** [re.match(r'(\S+)\s+-->\s+(\S+)', line)] and its two groups. Each
    greedy run can only end where the class changes, so the match is the
    one found without backtracking. *)
Definition match_timing (line : str) : option (str * str) :=
  let '(tok1, r1) := span nonspace line in
  let '(ws1, r2) := span isspace r1 in
  match strip_prefix (lit "-->") r2 with
  | Some r3 =>
      let '(ws2, r4) := span isspace r3 in
      let '(tok2, _) := span nonspace r4 in
      if nonempty tok1 && nonempty ws1 && nonempty ws2 && nonempty tok2
      then Some (tok1, tok2) else None
  | None => None
  end.

Section Parser.

Variable decimal : char -> option N.

(** The body of the loop over the blocks: [None] where the source says
    [continue], the new segment where it appends. *)
Definition parse_block (block : str) : outcome (option segment) :=
  let lines := split newline (strip block) in
  if (length lines <? 3)%nat then Returned None
  else
    let timestamp_line := nth 1 lines [] in
    let txt := join [newline] (skipn 2 lines) in
    match match_timing timestamp_line with
    | None => Returned None
    | Some (start_ts, end_ts) =>
        st <- parse_srt_timestamp decimal start_ts ;;
        en <- parse_srt_timestamp decimal end_ts ;;
        Returned (Some {| start := st; end_ := en; text := txt |})
    end.

Fixpoint parse_blocks (blocks : list str) (segments : list segment)
  : outcome (list segment) :=
  match blocks with
  | [] => Returned segments
  | block :: rest =>
      r <- parse_block block ;;
      parse_blocks rest
        (match r with Some seg => segments ++ [seg] | None => segments end)
  end.

Definition blocks_of (content : str) : list str :=
  re_split_blank false (strip content).

Definition parse_srt_file (content : str) : outcome (list segment) :=
  parse_blocks (blocks_of content) [].

End Parser.

(** ** Caption merger *)

Definition terminal : list char := [ch "."; ch "?"; ch "!"].

Section Merger.

Variable max_chars : Z.
Variable max_gap : Q.

Definition combined_text (current seg : segment) : str :=
  text current ++ space :: strip (text seg).

Definition has_terminal (current : segment) : bool :=
  endswith_any terminal (rstrip (text current)).

Definition should_merge (current seg : segment) : bool :=
  let gap := (start seg - end_ current)%Q in
  negb (has_terminal current)
  && Qle_bool gap max_gap
  && (Z.of_nat (length (combined_text current seg)) <=? max_chars)%Z.

(** The body of the loop: the state is the list [merged] and the
    accumulator [current]. *)
Definition merge_step (st : list segment * segment) (seg : segment)
  : list segment * segment :=
  let '(merged, current) := st in
  if should_merge current seg then
    (merged, {| start := start current;
                end_ := end_ seg;
                text := combined_text current seg |})
  else
    (merged ++ [current], {| start := start seg;
                             end_ := end_ seg;
                             text := strip (text seg) |}).

Definition seed (first : segment) : segment :=
  {| start := start first; end_ := end_ first; text := strip (text first) |}.

Definition merge_captions (segments : list segment) : list segment :=
  match segments with
  | [] => []
  | first :: rest =>
      let '(merged, current) := fold_left merge_step rest ([], seed first) in
      merged ++ [current]
  end.

End Merger.

(** ** Transliteration selector *)

Inductive scheme : Type := ITRANS | HK | IAST | DEVANAGARI.

(** [transliterate(text, source, destination)] of the library. *)
Definition transliterator := str -> scheme -> scheme -> outcome str.

Definition try_except {A} (body : outcome A) (handler : exn -> outcome A)
  : outcome A :=
  match body with
  | Returned a => Returned a
  | Raised e => handler e
  end.

Definition is_devanagari (c : char) : bool :=
  ((0x0900 <=? c) && (c <=? 0x097F))%N.

Definition devanagari_count (result : str) : nat :=
  length (filter is_devanagari result).

Section Selector.

Variable transliterate : transliterator.

(** One turn of the loop over the schemes, on the pair
    [(best_result, best_score)]. *)
Definition try_scheme (txt : str) (best : str * nat) (sch : scheme)
  : outcome (str * nat) :=
  try_except
    (result <- transliterate txt sch DEVANAGARI ;;
     let count := devanagari_count result in
     Returned (if (snd best <? count)%nat then (result, count) else best))
    (fun _ => Returned best).

Fixpoint try_schemes (txt : str) (schemes : list scheme) (best : str * nat)
  : outcome (str * nat) :=
  match schemes with
  | [] => Returned best
  | sch :: rest =>
      best' <- try_scheme txt best sch ;;
      try_schemes txt rest best'
  end.

Definition select_best (txt : str) (schemes : list scheme) : outcome str :=
  best <- try_schemes txt schemes (txt, 0%nat) ;;
  Returned (fst best).

End Selector.

(** The library is present ([Some]) or its import fails ([None]). *)
Definition transliterate_to_devanagari (sanscript : option transliterator)
  (txt : str) : outcome str :=
  match sanscript with
  | None => Returned txt
  | Some transliterate => select_best transliterate txt [ITRANS; HK; IAST]
  end.

Fixpoint transliterate_segments (sanscript : option transliterator)
  (segments : list segment) : outcome (list segment) :=
  match segments with
  | [] => Returned []
  | seg :: rest =>
      t <- transliterate_to_devanagari sanscript (text seg) ;;
      rest' <- transliterate_segments sanscript rest ;;
      Returned ({| start := start seg; end_ := end_ seg; text := t |} :: rest')
  end.

(** ** Caption serializer *)

(** [f"{i}"] for an [int]. *)
Definition str_of_int (i : Z) : str := format_d 0 i.

(** What [write_srt] writes to its file; [i] is the counter of
    [enumerate(segments, 1)]. *)
Fixpoint write_srt_from (i : Z) (segments : list segment) : str :=
  match segments with
  | [] => []
  | seg :: rest =>
      (str_of_int i ++ [newline])
      ++ (format_srt_timestamp (start seg) ++ lit " --> "
          ++ format_srt_timestamp (end_ seg) ++ [newline])
      ++ (text seg ++ [newline; newline])
      ++ write_srt_from (i + 1) rest
  end.

Definition write_srt (segments : list segment) : str :=
  write_srt_from 1 segments.

Fixpoint write_vtt_body (segments : list segment) : str :=
  match segments with
  | [] => []
  | seg :: rest =>
      (format_vtt_timestamp (start seg) ++ lit " --> "
       ++ format_vtt_timestamp (end_ seg) ++ [newline])
      ++ (text seg ++ [newline; newline])
      ++ write_vtt_body rest
  end.

(** What [write_vtt] writes to its file. *)
Definition write_vtt (segments : list segment) : str :=
  (lit "WEBVTT" ++ [newline; newline]) ++ write_vtt_body segments.

(** What [write_txt] writes to its file. *)
Fixpoint write_txt (segments : list segment) : str :=
  match segments with
  | [] => []
  | seg :: rest => (text seg ++ [newline]) ++ write_txt rest
  end.

(** ** The script's entry point *)

(** The files of the input directory, by name. *)
Definition directory := string -> option str.

(** Opening a file of the directory for writing and writing [content]. *)
Definition write_file (d : directory) (name : string) (content : str)
  : directory :=
  fun n => if String.eqb n name then Some content else d n.

Record arguments : Type := {
  merge_captions_flag : bool;
  devanagari_flag : bool
}.

(** [main] after the command line is parsed: [input_dir] is [None] when the
    directory does not exist, and its files hold text. The result is the
    exit code, or the exception that ends the run, with the directory as
    the run leaves it; the messages printed are left out. *)
Definition main (decimal : char -> option N)
  (sanscript : option transliterator)
  (input_dir : option directory) (args : arguments)
  : outcome Z * option directory :=
  match input_dir with
  | None => (Returned 1%Z, input_dir)
  | Some d =>
      match d "transcript.srt"%string with
      | None => (Returned 1%Z, input_dir)
      | Some content =>
          match parse_srt_file decimal content with
          | Raised e => (Raised e, input_dir)
          | Returned segments =>
              let d1 :=
                if merge_captions_flag args then
                  let merged_segments := merge_captions 140 1 segments in
                  let a := write_file d "transcript.merged.srt"
                             (write_srt merged_segments) in
                  let b := write_file a "transcript.merged.vtt"
                             (write_vtt merged_segments) in
                  write_file b "transcript.merged.txt"
                    (write_txt merged_segments)
                else d in
              if devanagari_flag args then
                match transliterate_segments sanscript segments with
                | Raised e => (Raised e, Some d1)
                | Returned dev_segments =>
                    let a := write_file d1 "transcript.dev.srt"
                               (write_srt dev_segments) in
                    let b := write_file a "transcript.dev.vtt"
                               (write_vtt dev_segments) in
                    (Returned 0%Z,
                     Some (write_file b "transcript.dev.txt"
                             (write_txt dev_segments)))
                end
              else (Returned 0%Z, Some d1)
          end
      end
  end.

(** * Video metadata (ytx/metadata.py) *)

Definition hyphen : char := ch "-".

Definition in_range (lo hi : ascii) (c : char) : bool :=
  ((ch lo <=? c) && (c <=? ch hi))%N.

(** The class [[a-zA-Z0-9_-]] of a video id. *)
Definition is_id_char (c : char) : bool :=
  in_range "a" "z" c || in_range "A" "Z" c || in_range "0" "9" c
  || (c =? underscore)%N || (c =? hyphen)%N.

(** The group [([a-zA-Z0-9_-]{11})] at the start of [s]. *)
Definition take_id (s : str) : option str :=
  let id := firstn 11 s in
  if (length id =? 11)%nat && forallb is_id_char id then Some id else None.

(** A pattern [(?:p1|p2|...)([a-zA-Z0-9_-]{11})] tried at the start of [s]:
    the alternatives in order, the next one when the group fails. *)
Fixpoint match_here (alternatives : list str) (s : str) : option str :=
  match alternatives with
  | [] => None
  | p :: ps =>
      match strip_prefix p s with
      | Some r =>
          match take_id r with
          | Some id => Some id
          | None => match_here ps s
          end
      | None => match_here ps s
      end
  end.

(** [re.search] of such a pattern, and its group: the leftmost position
    at which it matches. *)
Fixpoint re_search (alternatives : list str) (s : str) : option str :=
  match match_here alternatives s with
  | Some id => Some id
  | None =>
      match s with
      | [] => None
      | _ :: r => re_search alternatives r
      end
  end.

Definition extract_video_id (url : str) : option str :=
  match re_search [lit "youtube.com/watch?v="; lit "youtu.be/";
                   lit "youtube.com/embed/"] url with
  | Some id => Some id
  | None => re_search [lit "v="] url
  end.

(** The class [[a-z0-9]]. *)
Definition is_alnum (c : char) : bool :=
  in_range "a" "z" c || in_range "0" "9" c.

(** The class [[_-]]. *)
Definition is_joiner (c : char) : bool :=
  (c =? underscore)%N || (c =? hyphen)%N.

(** The class [[a-z0-9_-]], whose complement [sanitize_title] removes. *)
Definition is_safe (c : char) : bool := is_alnum c || is_joiner c.

(** [s.replace(old, new)] for one-character strings. *)
Definition replace_char (old new : char) (s : str) : str :=
  map (fun c => if (c =? old)%N then new else c) s.

(** [re.sub(r"[_-]+", "_", s)]: each maximal run of the class becomes one
    underscore. [in_run] holds while a run is being consumed. *)
Fixpoint collapse_joiners (in_run : bool) (s : str) : str :=
  match s with
  | [] => []
  | c :: r =>
      if is_joiner c then
        if in_run then collapse_joiners true r
        else underscore :: collapse_joiners true r
      else c :: collapse_joiners false r
  end.

(** [s.lstrip(chars)] and [s.rstrip(chars)], the characters given by a
    class. *)
Fixpoint lstrip_chars (p : char -> bool) (s : str) : str :=
  match s with
  | c :: r => if p c then lstrip_chars p r else s
  | [] => []
  end.

Fixpoint rstrip_chars (p : char -> bool) (s : str) : str :=
  match s with
  | [] => []
  | c :: r =>
      match rstrip_chars p r with
      | [] => if p c then [] else [c]
      | r' => c :: r'
      end
  end.

Definition strip_chars (p : char -> bool) (s : str) : str :=
  rstrip_chars p (lstrip_chars p s).

(** [s[:n]]: a negative [n] counts from the end. *)
Definition slice_to (n : Z) (s : str) : str :=
  if (0 <=? n)%Z then firstn (Z.to_nat n) s
  else firstn (Z.to_nat (Z.of_nat (length s) + n)) s.

Section Sanitize.

(** [str.lower], which follows the case mappings of the Unicode
    database. *)
Variable lower : str -> str.

Definition sanitize_title (title : str) (max_length : Z) : str :=
  let sanitized := lower title in
  let sanitized := replace_char space underscore sanitized in
  let sanitized := filter is_safe sanitized in
  let sanitized := collapse_joiners false sanitized in
  let sanitized := strip_chars is_joiner sanitized in
  let sanitized :=
    if (max_length <? Z.of_nat (length sanitized))%Z
    then rstrip_chars is_joiner (slice_to max_length sanitized)
    else sanitized in
  if nonempty sanitized then sanitized else lit "video".

End Sanitize.

(** The ASCII part of [str.lower]. *)
Definition ascii_lower (s : str) : str :=
  map (fun c => if in_range "A" "Z" c then (c + 32)%N else c) s.

(** * Vocabulary of the properties *)

Definition is_digit (c : char) : Prop := (48 <= c <= 57)%N.

Definition digits_value (ds : str) : N :=
  fold_left (fun acc c => (10 * acc + (c - 48))%N) ds 0%N.

(** [int] accepts the field. *)
Definition is_integer (decimal : char -> option N) (field : str) : Prop :=
  exists z, py_int decimal field = Returned z.

(** The token has the shape [H:M:S,m]: three fields separated by colons, a
    comma, and a fourth field, every field an integer. *)
Definition well_formed_timestamp (decimal : char -> option N) (ts : str)
  : Prop :=
  exists hf mf sf msf,
    ts = hf ++ colon :: mf ++ colon :: sf ++ comma :: msf
    /\ (~ In colon hf /\ ~ In colon mf /\ ~ In colon sf)
    /\ (~ In comma hf /\ ~ In comma mf /\ ~ In comma sf /\ ~ In comma msf)
    /\ is_integer decimal hf /\ is_integer decimal mf
    /\ is_integer decimal sf /\ is_integer decimal msf.

Definition block_lines (block : str) : list str :=
  split newline (strip block).

Definition timing_line (block : str) : str := nth 1 (block_lines block) [].

(** No two newlines in a row. *)
Definition no_blank_line (s : str) : Prop :=
  forall a b, s <> a ++ newline :: newline :: b.

(** The line begins with [start_ts], whitespace, [-->], whitespace and
    [end_ts], the two tokens being non-empty runs without whitespace and
    [end_ts] going up to the next whitespace or the end of the line. *)
Definition timing_shape (line start_ts end_ts : str) : Prop :=
  exists ws1 ws2 rest,
    line = start_ts ++ ws1 ++ lit "-->" ++ ws2 ++ end_ts ++ rest
    /\ start_ts <> [] /\ Forall (fun c => nonspace c = true) start_ts
    /\ ws1 <> [] /\ Forall (fun c => isspace c = true) ws1
    /\ ws2 <> [] /\ Forall (fun c => isspace c = true) ws2
    /\ end_ts <> [] /\ Forall (fun c => nonspace c = true) end_ts
    /\ (forall c r, rest = c :: r -> nonspace c = false).

(** A block the parser passes over: fewer than 3 non-empty lines, or a
    second line that is not of the shape [<token> --> <token>]. *)
Definition skippable (block : str) : Prop :=
  (length (filter nonempty (block_lines block)) < 3)%nat
  \/ (forall start_ts end_ts,
         ~ timing_shape (timing_line block) start_ts end_ts).

(** The text ends in one of the three terminal marks. *)
Definition ends_with_terminal (s : str) : Prop :=
  exists body c, s = body ++ [c] /\ (c = ch "." \/ c = ch "?" \/ c = ch "!").

(** The three conditions of a merge, on the accumulator and the next
    segment. *)
Definition merge_conditions (max_chars : Z) (max_gap : Q)
  (current next : segment) : Prop :=
  ~ ends_with_terminal (rstrip (text current))
  /\ (start next - end_ current <= max_gap)%Q
  /\ (Z.of_nat (length (text current ++ [space] ++ strip (text next)))
      <= max_chars)%Z.

(** The state of the scan after the segments [rest] that follow [first]. *)
Definition scan (max_chars : Z) (max_gap : Q) (first : segment)
  (rest : list segment) : list segment * segment :=
  fold_left (merge_step max_chars max_gap) rest ([], seed first).

(** The segment that stands for a non-empty run of consecutive input
    segments, [first] followed by [others]: it starts where the first one
    starts, ends where the last one ends, and its text is the stripped texts
    joined by single spaces. *)
Definition constituents_segment (g : segment * list segment) : segment :=
  let '(first, others) := g in
  {| start := start first;
     end_ := end_ (last others first);
     text := join [space] (map (fun s => strip (text s)) (first :: others)) |}.

Definition flatten (groups : list (segment * list segment)) : list segment :=
  concat (map (fun g => fst g :: snd g) groups).

Definition total_length (segments : list segment) : nat :=
  list_sum (map (fun s => length (text s)) segments).

(** The number of merges the scan performs from the accumulator [current]
    over [rest]. *)
Fixpoint merges (max_chars : Z) (max_gap : Q) (current : segment)
  (rest : list segment) : nat :=
  match rest with
  | [] => 0
  | seg :: rest' =>
      (if should_merge max_chars max_gap current seg then 1 else 0)
      + merges max_chars max_gap
          (snd (merge_step max_chars max_gap ([], current) seg)) rest'
  end.

Definition n_merges (max_chars : Z) (max_gap : Q) (segments : list segment)
  : nat :=
  match segments with
  | [] => 0
  | first :: rest => merges max_chars max_gap (seed first) rest
  end.

(** The score of a scheme on a text: the count of its result, 0 when the
    conversion raises. *)
Definition score (transliterate : transliterator) (txt : str) (sch : scheme)
  : nat :=
  match transliterate txt sch DEVANAGARI with
  | Returned result => devanagari_count result
  | Raised _ => 0%nat
  end.

(** Every two neighbours of the list are related by [R]. *)
Fixpoint neighbours {A} (R : A -> A -> Prop) (l : list A) : Prop :=
  match l with
  | a :: (b :: _) as rest => R a b /\ neighbours R rest
  | _ => True
  end.

(** The stripped text of the segment is not empty. *)
Definition nonblank (seg : segment) : Prop := strip (text seg) <> [].

(** [b] starts at most [max_gap] after [a] ends. *)
Definition within_gap (max_gap : Q) (a b : segment) : Prop :=
  (start b - end_ a <= max_gap)%Q.

(** The scan from the accumulator [current] over [rest] flushes at every
    segment. *)
Fixpoint always_flushes (max_chars : Z) (max_gap : Q) (current : segment)
  (rest : list segment) : Prop :=
  match rest with
  | [] => True
  | seg :: rest' =>
      should_merge max_chars max_gap current seg = false
      /\ always_flushes max_chars max_gap (seed seg) rest'
  end.

(** An output segment made of two or more input segments keeps within the
    two thresholds: its text has at most [max_chars] characters and each
    of its constituents starts at most [max_gap] after the one before it
    ends. *)
Definition group_within (max_chars : Z) (max_gap : Q)
  (g : segment * list segment) : Prop :=
  snd g <> [] ->
  (Z.of_nat (length (text (constituents_segment g))) <= max_chars)%Z
  /\ neighbours (within_gap max_gap) (fst g :: snd g).

(** The time [t] as the timestamp text carries it: whole seconds and the
    rounded milliseconds. *)
Definition to_millisecond (t : Q) : Q :=
  (inject_Z (Qfloor t)
   + inject_Z (py_round ((t - inject_Z (Qfloor t)) * 1000)) / 1000)%Q.

(** Every newline of the text is followed by a character that is not a
    newline: no empty line, no newline at the end. *)
Fixpoint single_newlines (s : str) : Prop :=
  match s with
  | [] => True
  | c :: r =>
      (c = newline -> exists c2 r2, r = c2 :: r2 /\ c2 <> newline)
      /\ single_newlines r
  end.

(** A caption text that survives being written to a block and read back:
    not empty, no empty line, no newline at its start and no whitespace at
    its end. *)
Definition writable_text (txt : str) : Prop :=
  single_newlines txt
  /\ (exists c r, txt = c :: r /\ c <> newline)
  /\ (exists a c, txt = a ++ [c] /\ isspace c = false).

Definition writable (seg : segment) : Prop :=
  (0 <= start seg)%Q /\ (0 <= end_ seg)%Q /\ writable_text (text seg).

(** The block [write_srt] writes for the segment numbered [i], without the
    blank line that ends it. *)
Definition srt_block (i : Z) (seg : segment) : str :=
  str_of_int i ++ newline
    :: (format_srt_timestamp (start seg) ++ lit " --> "
        ++ format_srt_timestamp (end_ seg))
    ++ newline :: text seg.

Fixpoint srt_blocks (i : Z) (segments : list segment) : list str :=
  match segments with
  | [] => []
  | seg :: rest => srt_block i seg :: srt_blocks (i + 1) rest
  end.

(** The segment read back from the block written for [seg]. *)
Definition read_back (seg : segment) : segment :=
  {| start := to_millisecond (start seg);
     end_ := to_millisecond (end_ seg);
     text := text seg |}.

(** The string begins and ends with a character that is not whitespace. *)
Definition tight (s : str) : Prop :=
  (exists c r, s = c :: r /\ isspace c = false)
  /\ (exists a c, s = a ++ [c] /\ isspace c = false).

(** The names of the files [main] can write. *)
Definition output_names : list string :=
  ["transcript.merged.srt"; "transcript.merged.vtt"; "transcript.merged.txt";
   "transcript.dev.srt"; "transcript.dev.vtt"; "transcript.dev.txt"]%string.

(** An id as the patterns take it: 11 characters of the class. *)
Definition valid_id (id : str) : Prop :=
  length id = 11%nat /\ Forall (fun c => is_id_char c = true) id.

(** The strings after which [extract_video_id] looks for an id. *)
Definition id_markers : list str :=
  [lit "youtube.com/watch?v="; lit "youtu.be/"; lit "youtube.com/embed/";
   lit "v="].

(** [url] holds [id] right after [marker]. *)
Definition id_after (marker url id : str) : Prop :=
  exists before rest, url = before ++ marker ++ id ++ rest.

(** Every underscore is followed by a letter or digit, or ends the
    string; every other character is a letter or digit. *)
Fixpoint loosely_separated (s : str) : Prop :=
  match s with
  | [] => True
  | c :: r =>
      (is_alnum c = true
       \/ (c = underscore
           /\ forall c2 r2, r = c2 :: r2 -> is_alnum c2 = true))
      /\ loosely_separated r
  end.

(** Every underscore is followed by a letter or digit; every other
    character is a letter or digit. *)
Fixpoint separated (s : str) : Prop :=
  match s with
  | [] => True
  | c :: r =>
      (is_alnum c = true
       \/ (c = underscore
           /\ exists c2 r2, r = c2 :: r2 /\ is_alnum c2 = true))
      /\ separated r
  end.

(** A name made of words of lower-case letters and digits joined by single
    underscores, beginning with a word. *)
Definition safe_name (s : str) : Prop :=
  (exists c r, s = c :: r /\ is_alnum c = true) /\ separated s.

(** The time is a whole number of milliseconds. *)
Definition whole_milliseconds (t : Q) : Prop :=
  exists k : Z, (t == k # 1000)%Q.

(** What holds of every segment the parser returns. *)
Definition parsed_segment (seg : segment) : Prop :=
  writable_text (text seg)
  /\ whole_milliseconds (start seg)
  /\ whole_milliseconds (end_ seg).

(** The two segments have the same text and equal times. *)
Definition same_segment (a b : segment) : Prop :=
  text a = text b
  /\ (start a == start b)%Q
  /\ (end_ a == end_ b)%Q.


(** ** Sample inputs *)

Definition hello : segment :=
  {| start := 0; end_ := 1; text := lit "Hello" |}.

Definition world : segment :=
  {| start := 12 # 10; end_ := 2; text := lit "world." |}.

(** A library whose first scheme raises and whose two other schemes give
    two Devanagari letters each. *)
Definition sample_transliterate : transliterator :=
  fun txt sch _ =>
    match sch with
    | ITRANS => Raised LibraryError
    | HK => Returned [0x0915; 0x0916]%N
    | IAST => Returned [0x0917; 0x0918]%N
    | DEVANAGARI => Returned txt
    end.

(** A library every conversion of which raises. *)
Definition failing_transliterate : transliterator :=
  fun _ _ _ => Raised LibraryError.

(** A document whose second block has no text line. *)
Definition sample_document : str :=
  join [newline]
    [lit "1"; lit "00:00:00,000 --> 00:00:01,000"; lit "Hello"; [];
     lit "2"; lit "00:00:01,200 --> 00:00:02,000"; []].

(** * Properties *)

Example parse_scenario :
  parse_srt_timestamp ascii_decimal (lit "01:01:01,457") = Returned (3661457 # 1000).
Proof. vm_compute. reflexivity. Qed.

Example parse_two_blocks :
  parse_srt_file ascii_decimal
    (join [newline]
       [lit "1"; lit "00:00:00,000 --> 00:00:01,000"; lit "Hello"; [];
        lit "2"; lit "00:00:01,200 --> 00:00:02,000"; lit "world."; []])
  = Returned [ {| start := 0 # 1000; end_ := 1000 # 1000; text := lit "Hello" |};
               {| start := 1200 # 1000; end_ := 2000 # 1000;
                  text := lit "world." |} ].
Proof. vm_compute. reflexivity. Qed.

Example merge_two_blocks :
  merge_captions 140 1
    [ {| start := 0 # 1000; end_ := 1000 # 1000; text := lit "Hello" |};
      {| start := 1200 # 1000; end_ := 2000 # 1000; text := lit "world." |} ]
  = [ {| start := 0 # 1000; end_ := 2000 # 1000; text := lit "Hello world." |} ].
Proof. vm_compute. reflexivity. Qed.

(** ** Transliteration selector *)

(** Runs the monadic plumbing of a goal, leaving comparisons folded. *)
Ltac run := cbv beta iota zeta delta [bind try_except snd fst].

Section SelectorFacts.

Variable transliterate : transliterator.

Lemma try_scheme_returns txt best sch :
  exists best', try_scheme transliterate txt best sch = Returned best'.
Proof.
  unfold try_scheme.
  destruct (transliterate txt sch DEVANAGARI) as [result | e]; cbn; eauto.
Qed.

Lemma try_scheme_raised txt best sch :
  raises (transliterate txt sch DEVANAGARI) ->
  try_scheme transliterate txt best sch = Returned best.
Proof.
  intros [e He]. unfold try_scheme. now rewrite He.
Qed.

Lemma try_scheme_low txt b n sch :
  (score transliterate txt sch <= n)%nat ->
  try_scheme transliterate txt (b, n) sch = Returned (b, n).
Proof.
  unfold score, try_scheme.
  destruct (transliterate txt sch DEVANAGARI) as [result | e]; run; auto.
  intros H. destruct (Nat.ltb_spec n (devanagari_count result)); [lia | reflexivity].
Qed.

Lemma try_scheme_high txt b n sch result :
  transliterate txt sch DEVANAGARI = Returned result ->
  (n < devanagari_count result)%nat ->
  try_scheme transliterate txt (b, n) sch
  = Returned (result, devanagari_count result).
Proof.
  intros Hr H. unfold try_scheme. rewrite Hr. run.
  destruct (Nat.ltb_spec n (devanagari_count result)); [reflexivity | lia].
Qed.

Lemma try_scheme_snd txt b n sch :
  exists b', try_scheme transliterate txt (b, n) sch
             = Returned (b', Nat.max n (score transliterate txt sch)).
Proof.
  unfold score, try_scheme.
  destruct (transliterate txt sch DEVANAGARI) as [result | e]; run.
  - destruct (Nat.ltb_spec n (devanagari_count result)).
    + exists result. now rewrite Nat.max_r by lia.
    + exists b. now rewrite Nat.max_l by lia.
  - exists b. now rewrite Nat.max_l by lia.
Qed.

Lemma try_schemes_returns txt schemes : forall best,
  exists best', try_schemes transliterate txt schemes best = Returned best'.
Proof.
  induction schemes as [| sch rest IH]; intros best; cbn.
  - eauto.
  - destruct (try_scheme_returns txt best sch) as [b' ->]. cbn. apply IH.
Qed.

Lemma try_schemes_low txt schemes : forall b n,
  (forall sch, In sch schemes -> (score transliterate txt sch <= n)%nat) ->
  try_schemes transliterate txt schemes (b, n) = Returned (b, n).
Proof.
  induction schemes as [| sch rest IH]; intros b n H; cbn; auto.
  rewrite try_scheme_low by (apply H; now left). cbn.
  apply IH. intros s Hs. apply H. now right.
Qed.

Lemma try_schemes_first_best txt pre : forall sch post result b n,
  transliterate txt sch DEVANAGARI = Returned result ->
  (n < devanagari_count result)%nat ->
  (forall s, In s pre -> (score transliterate txt s < devanagari_count result)%nat) ->
  (forall s, In s post -> (score transliterate txt s <= devanagari_count result)%nat) ->
  try_schemes transliterate txt (pre ++ sch :: post) (b, n)
  = Returned (result, devanagari_count result).
Proof.
  induction pre as [| s pre IH]; intros sch post result b n Hr Hn Hpre Hpost.
  - cbn. rewrite (try_scheme_high _ _ _ _ _ Hr Hn). cbn.
    now apply try_schemes_low.
  - cbn. destruct (try_scheme_snd txt b n s) as [b' ->]. cbn.
    apply IH; auto.
    + specialize (Hpre s (or_introl eq_refl)). lia.
    + intros s' Hs'. apply Hpre. now right.
Qed.

Lemma try_schemes_skip txt pre : forall sch post best,
  raises (transliterate txt sch DEVANAGARI) ->
  try_schemes transliterate txt (pre ++ sch :: post) best
  = try_schemes transliterate txt (pre ++ post) best.
Proof.
  induction pre as [| s pre IH]; intros sch post best Hr; cbn.
  - now rewrite try_scheme_raised.
  - destruct (try_scheme_returns txt best s) as [b' ->]. cbn. now apply IH.
Qed.

Lemma select_best_returns txt schemes :
  exists result, select_best transliterate txt schemes = Returned result.
Proof.
  unfold select_best.
  destruct (try_schemes_returns txt schemes (txt, 0%nat)) as [[r n] ->].
  cbn. eauto.
Qed.

End SelectorFacts.

Lemma transliterate_to_devanagari_returns sanscript txt :
  exists result, transliterate_to_devanagari sanscript txt = Returned result.
Proof.
  destruct sanscript as [tr |]; cbn.
  - apply select_best_returns.
  - eauto.
Qed.

(** C7: over any ordered scheme list, the selector returns the result of the
    first scheme whose count is positive, above the count of every earlier
    scheme and not below that of any later one; when no scheme scores above
    0 it returns the input text, and so it does when the library is
    missing. *)
Theorem select_best_first_maximum :
  forall (transliterate : transliterator) (txt : str) (schemes : list scheme),
    (forall pre sch post result,
        schemes = pre ++ sch :: post ->
        transliterate txt sch DEVANAGARI = Returned result ->
        (0 < devanagari_count result)%nat ->
        (forall s, In s pre ->
                   (score transliterate txt s < devanagari_count result)%nat) ->
        (forall s, In s post ->
                   (score transliterate txt s <= devanagari_count result)%nat) ->
        select_best transliterate txt schemes = Returned result)
    /\ ((forall sch, In sch schemes -> score transliterate txt sch = 0%nat) ->
        select_best transliterate txt schemes = Returned txt)
    /\ transliterate_to_devanagari None txt = Returned txt.
Proof.
  intros transliterate txt schemes. repeat split.
  - intros pre sch post result -> Hr Hpos Hpre Hpost. unfold select_best.
    now rewrite (try_schemes_first_best transliterate txt pre sch post result
                   txt 0%nat Hr Hpos Hpre Hpost).
  - intros Hzero. unfold select_best.
    rewrite try_schemes_low; auto.
    intros sch Hin. rewrite (Hzero sch Hin). lia.
Qed.

Lemma select_best_first_maximum_witness :
  select_best sample_transliterate (lit "ka") [ITRANS; HK; IAST]
  = Returned [0x0915; 0x0916]%N.
Proof.
  apply (proj1 (select_best_first_maximum sample_transliterate (lit "ka")
                  [ITRANS; HK; IAST])
           [ITRANS] HK [IAST] [0x0915; 0x0916]%N eq_refl eq_refl).
  - vm_compute. lia.
  - intros s [<- | []]. vm_compute. lia.
  - intros s [<- | []]. vm_compute. lia.
Defined.

(** C8: the selector returns for every text and every scheme list, whatever
    the conversions do; a scheme whose conversion raises is skipped, the
    scan going on as if it were not in the list, and when every conversion
    raises the input text is returned. *)
Theorem select_best_never_raises :
  forall (transliterate : transliterator) (txt : str) (schemes : list scheme),
    schemes <> [] ->
    ~ raises (select_best transliterate txt schemes)
    /\ (forall pre sch post,
           schemes = pre ++ sch :: post ->
           raises (transliterate txt sch DEVANAGARI) ->
           select_best transliterate txt schemes
           = select_best transliterate txt (pre ++ post))
    /\ ((forall sch, In sch schemes ->
                     raises (transliterate txt sch DEVANAGARI)) ->
        select_best transliterate txt schemes = Returned txt)
    /\ ~ raises (transliterate_to_devanagari (Some transliterate) txt).
Proof.
  intros transliterate txt schemes _. repeat split.
  - intros [e He].
    destruct (select_best_returns transliterate txt schemes) as [r Hr].
    congruence.
  - intros pre sch post -> Hr. unfold select_best.
    now rewrite try_schemes_skip.
  - intros Hall. unfold select_best. rewrite try_schemes_low; auto.
    intros sch Hin. destruct (Hall sch Hin) as [e He].
    unfold score. rewrite He. lia.
  - intros [e He].
    destruct (transliterate_to_devanagari_returns (Some transliterate) txt)
      as [r Hr].
    congruence.
Qed.

Lemma select_best_never_raises_witness :
  [ITRANS; HK; IAST] <> []
  /\ select_best failing_transliterate (lit "namaste") [ITRANS; HK; IAST]
     = Returned (lit "namaste").
Proof.
  assert (Hne : [ITRANS; HK; IAST] <> []) by discriminate.
  split; [exact Hne |].
  apply (proj1 (proj2 (proj2 (select_best_never_raises failing_transliterate
                                (lit "namaste") [ITRANS; HK; IAST] Hne)))).
  intros sch _. exists LibraryError. reflexivity.
Defined.

(** C10: transliterating a segment list returns a list of the same length
    whose segments keep the start and the end of the input segments, in
    order. *)
Theorem transliterate_segments_frame :
  forall (sanscript : option transliterator) (segments : list segment),
  exists out,
    transliterate_segments sanscript segments = Returned out
    /\ length out = length segments
    /\ map start out = map start segments
    /\ map end_ out = map end_ segments.
Proof.
  intros sanscript segments.
  induction segments as [| seg rest (out & Hout & Hlen & Hs & He)]; cbn.
  - exists []. auto.
  - destruct (transliterate_to_devanagari_returns sanscript (text seg))
      as [t ->].
    rewrite Hout. cbn. eexists. split; [reflexivity |]. cbn.
    now rewrite Hlen, Hs, He.
Qed.

(** ** Caption merger *)

Lemma endswith_any_terminal s :
  endswith_any terminal s = true <-> ends_with_terminal s.
Proof.
  unfold endswith_any, ends_with_terminal.
  destruct (rev s) as [| c r] eqn:E.
  - split; [discriminate |]. intros (body & c & -> & _).
    rewrite rev_app_distr in E. discriminate.
  - assert (Hs : s = rev r ++ [c]).
    { rewrite <- (rev_involutive s), E. reflexivity. }
    unfold terminal. cbn [existsb]. rewrite !orb_true_iff, !N.eqb_eq. split.
    + intros H. exists (rev r), c. split; [exact Hs |].
      intuition discriminate.
    + intros (body & c' & Hb & Hc). rewrite Hb in Hs.
      apply app_inj_tail in Hs. destruct Hs as [_ ->]. tauto.
Qed.

Lemma should_merge_spec max_chars max_gap current next :
  should_merge max_chars max_gap current next = true
  <-> merge_conditions max_chars max_gap current next.
Proof.
  unfold should_merge, merge_conditions, has_terminal, combined_text.
  rewrite !andb_true_iff, negb_true_iff, Qle_bool_iff, Z.leb_le.
  rewrite <- endswith_any_terminal, not_true_iff_false.
  cbn [app]. tauto.
Qed.

Lemma scan_snoc max_chars max_gap first pre seg :
  scan max_chars max_gap first (pre ++ [seg])
  = merge_step max_chars max_gap (scan max_chars max_gap first pre) seg.
Proof. unfold scan. now rewrite fold_left_app. Qed.

Lemma merge_captions_scan max_chars max_gap first rest :
  merge_captions max_chars max_gap (first :: rest)
  = fst (scan max_chars max_gap first rest)
      ++ [snd (scan max_chars max_gap first rest)].
Proof.
  unfold merge_captions, scan.
  now destruct (fold_left _ rest _) as [merged current].
Qed.



(** C9 as stated fails: a single segment whose text has surrounding
    whitespace does not come back unchanged. *)
Lemma merge_single_not_identity :
  merge_captions 140 1 [ {| start := 0; end_ := 1; text := lit " a" |} ]
  <> [ {| start := 0; end_ := 1; text := lit " a" |} ].
Proof. vm_compute. discriminate. Qed.

(** C9, amended: the empty list gives the empty list, and a single-segment
    list gives one segment with the same start and end whose text is the
    input text with its surrounding whitespace stripped. *)
Theorem merge_empty_and_single :
  forall (max_chars : Z) (max_gap : Q),
    merge_captions max_chars max_gap [] = []
    /\ forall s : segment,
        merge_captions max_chars max_gap [s]
        = [ {| start := start s; end_ := end_ s; text := strip (text s) |} ].
Proof. intros max_chars max_gap. split; reflexivity. Qed.

Lemma join_snoc (sep : str) (l : list str) (x : str) :
  l <> [] -> join sep (l ++ [x]) = join sep l ++ sep ++ x.
Proof.
  induction l as [| a l IH]; [congruence |]. intros _.
  destruct l as [| b l].
  - reflexivity.
  - change (join sep ((a :: b :: l) ++ [x]))
      with (a ++ sep ++ join sep ((b :: l) ++ [x])).
    rewrite IH by discriminate.
    change (join sep (a :: b :: l)) with (a ++ sep ++ join sep (b :: l)).
    now rewrite <- !app_assoc.
Qed.

Lemma lstrip_length s : (length (lstrip s) <= length s)%nat.
Proof.
  induction s as [| c r IH]; cbn; [lia |].
  destruct (isspace c); cbn; lia.
Qed.

Lemma strip_length s : (length (strip s) <= length s)%nat.
Proof.
  unfold strip, rstrip. rewrite length_rev.
  pose proof (lstrip_length (rev (lstrip s))) as H1.
  pose proof (lstrip_length s) as H2.
  rewrite length_rev in H1. lia.
Qed.

Lemma join_space_length (l : list str) :
  l <> [] ->
  (length (join [space] l) + 1 = list_sum (map (fun x => length x + 1) l))%nat.
Proof.
  induction l as [| a l IH]; [congruence |]. intros _.
  destruct l as [| b l].
  - cbn. lia.
  - change (join [space] (a :: b :: l))
      with (a ++ [space] ++ join [space] (b :: l)).
    rewrite !length_app. cbn [length map list_sum fold_right].
    cbn [map list_sum fold_right] in IH. specialize (IH ltac:(discriminate)). lia.
Qed.

Section MergerFacts.

Variable max_chars : Z.
Variable max_gap : Q.

Let step := merge_step max_chars max_gap.

Lemma merge_step_merge merged first others seg :
  should_merge max_chars max_gap (constituents_segment (first, others)) seg
  = true ->
  step (merged, constituents_segment (first, others)) seg
  = (merged, constituents_segment (first, others ++ [seg])).
Proof.
  intros H. unfold step, merge_step. rewrite H.
  unfold constituents_segment, combined_text. cbn [start end_ text].
  rewrite last_last.
  change (first :: others ++ [seg]) with ((first :: others) ++ [seg]).
  rewrite map_app. cbn [map]. rewrite join_snoc by discriminate.
  reflexivity.
Qed.

Lemma merge_step_flush merged current seg :
  should_merge max_chars max_gap current seg = false ->
  step (merged, current) seg
  = (merged ++ [current], constituents_segment (seg, [])).
Proof.
  intros H. unfold step, merge_step. now rewrite H.
Qed.

Lemma scan_groups rest : forall merged first others,
  exists groups g,
    fold_left step rest (merged, constituents_segment (first, others))
    = (merged ++ map constituents_segment groups, constituents_segment g)
    /\ flatten (groups ++ [g]) = (first :: others) ++ rest.
Proof.
  induction rest as [| seg rest IH]; intros merged first others.
  - exists [], (first, others). cbn. now rewrite !app_nil_r.
  - cbn [fold_left].
    destruct (should_merge max_chars max_gap
                (constituents_segment (first, others)) seg) eqn:E.
    + rewrite merge_step_merge by exact E.
      destruct (IH merged first (others ++ [seg])) as (groups & g & H1 & H2).
      exists groups, g. split; [exact H1 |].
      rewrite H2. cbn [app]. now rewrite <- app_assoc.
    + rewrite merge_step_flush by exact E.
      destruct (IH (merged ++ [constituents_segment (first, others)]) seg [])
        as (groups & g & H1 & H2).
      exists ((first, others) :: groups), g. split.
      * rewrite H1. cbn [map]. now rewrite <- app_assoc.
      * unfold flatten in *. cbn [app map concat fst snd].
        rewrite H2. reflexivity.
Qed.

Lemma merges_count rest : forall merged current,
  (merges max_chars max_gap current rest
   + length (fst (fold_left step rest (merged, current)))
   = length merged + length rest)%nat.
Proof.
  induction rest as [| seg rest IH]; intros merged current.
  - cbn. lia.
  - cbn [fold_left merges length].
    pose proof (IH (fst (step (merged, current) seg))
                   (snd (step (merged, current) seg))) as H.
    rewrite <- surjective_pairing in H.
    unfold step, merge_step in *.
    destruct (should_merge max_chars max_gap current seg);
      cbn [fst snd] in *; rewrite ?length_app in H; cbn [length] in H; lia.
Qed.

End MergerFacts.

Lemma constituents_length (g : segment * list segment) :
  (length (text (constituents_segment g)) + 1
   <= total_length (fst g :: snd g) + length (fst g :: snd g))%nat.
Proof.
  destruct g as [first others]. unfold constituents_segment.
  cbn [text fst snd].
  rewrite join_space_length by discriminate.
  unfold total_length.
  induction (first :: others) as [| s l IH];
    cbn [map list_sum fold_right length].
  - lia.
  - pose proof (strip_length (text s)). unfold list_sum in *. lia.
Qed.

Lemma total_length_app a b :
  total_length (a ++ b) = (total_length a + total_length b)%nat.
Proof. unfold total_length. now rewrite map_app, list_sum_app. Qed.

Lemma groups_length (groups : list (segment * list segment)) :
  (total_length (map constituents_segment groups) + length groups
   <= total_length (flatten groups) + length (flatten groups))%nat.
Proof.
  induction groups as [| g groups IH].
  - cbn. lia.
  - unfold flatten in *. cbn [map concat].
    rewrite total_length_app, length_app.
    pose proof (constituents_length g) as Hg.
    change (total_length (constituents_segment g
                          :: map constituents_segment groups))
      with (length (text (constituents_segment g))
            + total_length (map constituents_segment groups))%nat.
    cbn [length] in *. lia.
Qed.

(** C2: the output is the image of a cutting of the input into consecutive
    non-empty runs, each output segment taking the start of the first
    segment of its run, the end of the last one and the stripped texts
    joined by single spaces, in order; the total text length of the output
    is at most that of the input plus the number of merges performed, which
    is the number of segments the output has fewer than the input. *)
Theorem merge_constituents :
  forall (max_chars : Z) (max_gap : Q) (segments : list segment),
  exists groups : list (segment * list segment),
    flatten groups = segments
    /\ merge_captions max_chars max_gap segments
       = map constituents_segment groups
    /\ (n_merges max_chars max_gap segments
        + length (merge_captions max_chars max_gap segments)
        = length segments)%nat
    /\ (total_length (merge_captions max_chars max_gap segments)
        <= total_length segments + n_merges max_chars max_gap segments)%nat.
Proof.
  intros max_chars max_gap [| first rest].
  - exists []. cbn. auto.
  - destruct (scan_groups max_chars max_gap rest [] first [])
      as (groups & g & Hfold & Hflat).
    assert (Hseed : seed first = constituents_segment (first, [])) by reflexivity.
    assert (Hout : merge_captions max_chars max_gap (first :: rest)
                   = map constituents_segment (groups ++ [g])).
    { unfold merge_captions. rewrite Hseed, Hfold. now rewrite map_app. }
    assert (Hcount : (n_merges max_chars max_gap (first :: rest)
                      + length (merge_captions max_chars max_gap (first :: rest))
                      = length (first :: rest))%nat).
    { pose proof (merges_count max_chars max_gap rest [] (seed first)) as H.
      rewrite merge_captions_scan, length_app. unfold scan.
      cbn [n_merges length] in *. lia. }
    exists (groups ++ [g]). split; [exact Hflat |]. split; [exact Hout |].
    split; [exact Hcount |].
    pose proof (groups_length (groups ++ [g])) as Hlen.
    rewrite Hflat in Hlen. rewrite Hout in *. rewrite length_map in Hcount.
    cbn [app] in Hlen. lia.
Qed.

(** ** Strings: splitting and stripping *)

Lemma split_nonempty sep s : split sep s <> [].
Proof.
  destruct s as [| c r]; cbn; [discriminate |].
  destruct (c =? sep)%N; [discriminate |].
  destruct (split sep r); discriminate.
Qed.

Lemma split_app_sep sep p r :
  ~ In sep p -> split sep (p ++ sep :: r) = p :: split sep r.
Proof.
  induction p as [| c p IH]; intros Hp; cbn.
  - now rewrite N.eqb_refl.
  - destruct (N.eqb_spec c sep) as [-> | Hc].
    + exfalso. apply Hp. now left.
    + rewrite IH; [reflexivity |]. intros H. apply Hp. now right.
Qed.

Lemma split_no_occurrence sep p : ~ In sep p -> split sep p = [p].
Proof.
  induction p as [| c p IH]; intros Hp; cbn; [reflexivity |].
  destruct (N.eqb_spec c sep) as [-> | Hc].
  - exfalso. apply Hp. now left.
  - rewrite IH; [reflexivity |]. intros H. apply Hp. now right.
Qed.

Lemma split_join sep parts :
  parts <> [] ->
  Forall (fun p => ~ In sep p) parts ->
  split sep (join [sep] parts) = parts.
Proof.
  induction parts as [| p parts IH]; [congruence |]. intros _ Hall.
  inversion Hall as [| ? ? Hp Hrest]; subst.
  destruct parts as [| q parts].
  - now apply split_no_occurrence.
  - change (join [sep] (p :: q :: parts))
      with (p ++ sep :: join [sep] (q :: parts)).
    rewrite split_app_sep by exact Hp.
    now rewrite IH by (auto; discriminate).
Qed.

Lemma join_split sep s : join [sep] (split sep s) = s.
Proof.
  induction s as [| c r IH]; [reflexivity |]. cbn [split].
  pose proof (split_nonempty sep r) as Hne.
  destruct (N.eqb_spec c sep) as [-> | Hc].
  - destruct (split sep r) as [| p ps]; [congruence |].
    change (join [sep] ([] :: p :: ps)) with (sep :: join [sep] (p :: ps)).
    now rewrite IH.
  - destruct (split sep r) as [| p ps]; [congruence |].
    rewrite <- IH. now destruct ps.
Qed.

Lemma split_no_sep sep s : Forall (fun p => ~ In sep p) (split sep s).
Proof.
  induction s as [| c r IH]; cbn [split].
  - constructor; [intros [] | constructor].
  - destruct (N.eqb_spec c sep) as [-> | Hc].
    + constructor; [intros [] | exact IH].
    + destruct (split sep r) as [| p ps].
      * constructor; [| constructor]. intros [H | []]. congruence.
      * inversion IH as [| ? ? Hp Hps]; subst. constructor; [| exact Hps].
        intros [H | H]; [congruence | contradiction].
Qed.

Lemma split_two sep s a b :
  split sep s = [a; b]
  <-> s = a ++ sep :: b /\ ~ In sep a /\ ~ In sep b.
Proof.
  split.
  - intros H. pose proof (join_split sep s) as Hj.
    pose proof (split_no_sep sep s) as Hn. rewrite H in Hj, Hn.
    inversion Hn as [| ? ? Ha Hn']; subst.
    inversion Hn' as [| ? ? Hb _]; subst. auto.
  - intros (-> & Ha & Hb).
    change (a ++ sep :: b) with (join [sep] [a; b]).
    apply split_join; [discriminate | repeat constructor; assumption].
Qed.

Lemma split_three sep s a b c :
  split sep s = [a; b; c]
  <-> s = a ++ sep :: b ++ sep :: c
      /\ ~ In sep a /\ ~ In sep b /\ ~ In sep c.
Proof.
  split.
  - intros H. pose proof (join_split sep s) as Hj.
    pose proof (split_no_sep sep s) as Hn. rewrite H in Hj, Hn.
    inversion Hn as [| ? ? Ha Hn']; subst.
    inversion Hn' as [| ? ? Hb Hn'']; subst.
    inversion Hn'' as [| ? ? Hc _]; subst. auto.
  - intros (-> & Ha & Hb & Hc).
    change (a ++ sep :: b ++ sep :: c) with (join [sep] [a; b; c]).
    apply split_join; [discriminate | repeat constructor; assumption].
Qed.

Lemma not_in_app (x : char) (a b : str) :
  ~ In x (a ++ b) <-> ~ In x a /\ ~ In x b.
Proof. rewrite in_app_iff. tauto. Qed.

Lemma not_in_cons (x c : char) (a : str) :
  ~ In x (c :: a) <-> c <> x /\ ~ In x a.
Proof. cbn. tauto. Qed.

Lemma raises_iff_not_returns {A} (m : outcome A) :
  raises m <-> ~ exists a, m = Returned a.
Proof.
  unfold raises. destruct m as [a | e]; split.
  - intros [e He]. discriminate.
  - intros H. exfalso. apply H. eauto.
  - intros _ [a Ha]. discriminate.
  - eauto.
Qed.

(** ** Timestamp parsing: when it raises *)

Section ParseFacts.

Variable decimal : char -> option N.

Lemma py_int_error field e : py_int decimal field = Raised e -> e = ValueError.
Proof.
  unfold py_int.
  destruct (match strip field with
            | [] => (false, strip field)
            | c :: r => if (c =? minus)%N then (true, r)
                        else if (c =? plus)%N then (false, r)
                        else (false, strip field)
            end) as [neg ds].
  destruct (int_digits decimal 0 false ds); congruence.
Qed.

Lemma py_int_cases field :
  is_integer decimal field \/ py_int decimal field = Raised ValueError.
Proof.
  destruct (py_int decimal field) as [z | e] eqn:E.
  - left. exists z. exact E.
  - right. now rewrite (py_int_error _ _ E) in *.
Qed.

Lemma parse_srt_timestamp_returns ts :
  (exists t, parse_srt_timestamp decimal ts = Returned t)
  <-> well_formed_timestamp decimal ts.
Proof.
  unfold parse_srt_timestamp, well_formed_timestamp. split.
  - intros [t Ht].
    destruct (split comma ts) as [| tp [| msf [| ? ?]]] eqn:E1;
      try discriminate.
    destruct (split colon tp) as [| hf [| mf [| sf [| ? ?]]]] eqn:E2;
      try discriminate.
    apply split_two in E1. destruct E1 as (-> & Hc1 & Hc2).
    apply split_three in E2. destruct E2 as (-> & Hh & Hm & Hs).
    repeat (rewrite not_in_app in Hc1 || rewrite not_in_cons in Hc1).
    exists hf, mf, sf, msf.
    split; [now rewrite <- !app_assoc, <- !app_comm_cons, <- !app_assoc |].
    split; [tauto |]. split; [tauto |].
    unfold is_integer.
    destruct (py_int decimal hf) as [h |]; [| discriminate].
    destruct (py_int decimal mf) as [m |]; [| discriminate].
    destruct (py_int decimal sf) as [s |]; [| discriminate].
    destruct (py_int decimal msf) as [ms |]; [| discriminate].
    eauto 10.
  - intros (hf & mf & sf & msf & -> & (Hh & Hm & Hs) & (Hch & Hcm & Hcs & Hcms)
            & [h Hhv] & [m Hmv] & [s Hsv] & [ms Hmsv]).
    assert (Hcomma : comma <> colon) by (vm_compute; discriminate).
    assert (E1 : split comma (hf ++ colon :: mf ++ colon :: sf ++ comma :: msf)
                 = [hf ++ colon :: mf ++ colon :: sf; msf]).
    { apply split_two. split.
      - now rewrite <- !app_assoc, <- !app_comm_cons, <- !app_assoc.
      - repeat (rewrite not_in_app || rewrite not_in_cons).
        intuition congruence. }
    rewrite E1.
    assert (E2 : split colon (hf ++ colon :: mf ++ colon :: sf) = [hf; mf; sf]).
    { apply split_three. auto. }
    rewrite E2, Hhv, Hmv, Hsv, Hmsv. cbn. eauto.
Qed.

Lemma parse_srt_timestamp_error ts e :
  parse_srt_timestamp decimal ts = Raised e -> e = ValueError.
Proof.
  unfold parse_srt_timestamp.
  destruct (split comma ts) as [| tp [| msf [| ? ?]]]; try congruence.
  destruct (split colon tp) as [| hf [| mf [| sf [| ? ?]]]]; try congruence.
  destruct (py_int decimal hf) as [h | e1] eqn:E1; cbn;
    [| intros H; injection H as <-; eapply py_int_error; eauto].
  destruct (py_int decimal mf) as [m | e2] eqn:E2; cbn;
    [| intros H; injection H as <-; eapply py_int_error; eauto].
  destruct (py_int decimal sf) as [s | e3] eqn:E3; cbn;
    [| intros H; injection H as <-; eapply py_int_error; eauto].
  destruct (py_int decimal msf) as [ms | e4] eqn:E4; cbn;
    [| intros H; injection H as <-; eapply py_int_error; eauto].
  discriminate.
Qed.

Lemma parse_srt_timestamp_raises ts :
  raises (parse_srt_timestamp decimal ts) <-> ~ well_formed_timestamp decimal ts.
Proof.
  now rewrite raises_iff_not_returns, parse_srt_timestamp_returns.
Qed.

End ParseFacts.

Lemma lstrip_suffix s : exists l, s = l ++ lstrip s.
Proof.
  induction s as [| c r [l IH]]; cbn.
  - now exists [].
  - destruct (isspace c).
    + exists (c :: l). cbn. now rewrite <- IH.
    + now exists [].
Qed.

Lemma lstrip_head s c r : lstrip s = c :: r -> isspace c = false.
Proof.
  induction s as [| c' r' IH]; cbn; [discriminate |].
  destruct (isspace c') eqn:E; [exact IH |].
  intros H. injection H as <- <-. exact E.
Qed.

Lemma rstrip_prefix s : exists r, s = rstrip s ++ r.
Proof.
  unfold rstrip. destruct (lstrip_suffix (rev s)) as [l Hl].
  exists (rev l). rewrite <- rev_app_distr, <- Hl. now rewrite rev_involutive.
Qed.

Lemma rstrip_last s a c : rstrip s = a ++ [c] -> isspace c = false.
Proof.
  unfold rstrip. intros H. apply (f_equal (@rev char)) in H.
  rewrite rev_involutive, rev_app_distr in H. cbn in H.
  now apply lstrip_head in H.
Qed.

Lemma strip_infix s : exists l r, s = l ++ strip s ++ r.
Proof.
  unfold strip. destruct (lstrip_suffix s) as [l Hl].
  destruct (rstrip_prefix (lstrip s)) as [r Hr].
  exists l, r. now rewrite <- Hr.
Qed.

Lemma strip_head s c r : strip s = c :: r -> isspace c = false.
Proof.
  unfold strip. intros H.
  destruct (rstrip_prefix (lstrip s)) as [t Ht]. rewrite H in Ht.
  now apply lstrip_head in Ht.
Qed.

Lemma strip_last s a c : strip s = a ++ [c] -> isspace c = false.
Proof. unfold strip. apply rstrip_last. Qed.

Lemma lstrip_nonspace s :
  Forall (fun c => isspace c = false) s -> lstrip s = s.
Proof.
  intros H. destruct H as [| c r Hc _]; cbn; [reflexivity |]. now rewrite Hc.
Qed.

Lemma strip_nonspace s :
  Forall (fun c => isspace c = false) s -> strip s = s.
Proof.
  intros H. unfold strip, rstrip. rewrite (lstrip_nonspace s H).
  rewrite lstrip_nonspace by now apply Forall_rev.
  apply rev_involutive.
Qed.

(** ** Blocks and their lines *)

Lemma no_blank_line_infix l s r :
  no_blank_line (l ++ s ++ r) -> no_blank_line s.
Proof.
  intros H a b ->. apply (H (l ++ a) (b ++ r)).
  now rewrite <- !app_assoc.
Qed.

Lemma no_blank_line_cons c p :
  no_blank_line p ->
  (c = newline -> forall r, p <> newline :: r) ->
  no_blank_line (c :: p).
Proof.
  intros Hp Hc [| x a] b H; cbn in H; injection H as -> ->.
  - now apply (Hc eq_refl b).
  - now apply (Hp a b).
Qed.

Lemma re_split_blank_step c r :
  c <> newline ->
  re_split_blank false (c :: r) = cons_first c (re_split_blank false r).
Proof.
  intros Hc. apply N.eqb_neq in Hc. cbn. rewrite Hc. now destruct r.
Qed.

Lemma re_split_blank_nonempty in_sep s : re_split_blank in_sep s <> [].
Proof.
  revert in_sep. induction s as [| c r IH]; intros in_sep; cbn.
  - discriminate.
  - destruct (in_sep && (c =? newline)%N); [apply IH |].
    destruct r as [| c2 r2].
    + discriminate.
    + destruct ((c =? newline)%N && (c2 =? newline)%N); [discriminate |].
      destruct (re_split_blank false (c2 :: r2)); discriminate.
Qed.

Lemma re_split_blank_pieces n : forall s in_sep,
  (length s <= n)%nat ->
  Forall no_blank_line (re_split_blank in_sep s).
Proof.
  induction n as [| n IH]; intros s in_sep Hlen.
  - destruct s; [| cbn in Hlen; lia]. cbn. constructor; [| constructor].
    intros [| ? ?] b H; discriminate.
  - destruct s as [| c r].
    { cbn. constructor; [| constructor]. intros [| ? ?] b H; discriminate. }
    cbn in Hlen. cbn [re_split_blank].
    destruct (in_sep && (c =? newline)%N); [apply IH; lia |].
    assert (Hcons : forall c2 r2, r = c2 :: r2 ->
              (c =? newline)%N && (c2 =? newline)%N = false ->
              Forall no_blank_line (cons_first c (re_split_blank false r))).
    { intros c2 r2 -> Hnn.
      assert (Hr : Forall no_blank_line (re_split_blank false (c2 :: r2))).
      { apply IH. cbn [length] in *. lia. }
      destruct (re_split_blank false (c2 :: r2)) as [| p ps] eqn:E.
      { now apply re_split_blank_nonempty in E. }
      inversion Hr as [| ? ? Hp Hps]; subst. cbn. constructor; [| exact Hps].
      apply no_blank_line_cons; [exact Hp |].
      intros -> t ->. rewrite N.eqb_refl in Hnn. cbn in Hnn.
      apply N.eqb_neq in Hnn.
      rewrite re_split_blank_step in E by exact Hnn.
      destruct (re_split_blank false r2); cbn in E; congruence. }
    destruct r as [| c2 r2].
    + cbn. constructor; [| constructor].
      intros [| ? [| ? ?]] b H; discriminate.
    + destruct ((c =? newline)%N && (c2 =? newline)%N) eqn:Hnn.
      * constructor; [intros [| ? ?] b H; discriminate |].
        apply IH. cbn in Hlen. lia.
      * now apply (Hcons c2 r2).
Qed.

Lemma blocks_no_blank_line content block :
  In block (blocks_of content) -> no_blank_line (strip block).
Proof.
  unfold blocks_of. intros Hin.
  pose proof (re_split_blank_pieces _ (strip content) false (le_n _)) as H.
  rewrite Forall_forall in H. specialize (H block Hin).
  destruct (strip_infix block) as (l & r & Hb).
  rewrite Hb in H. now apply no_blank_line_infix in H.
Qed.

Lemma split_lines_nonempty s :
  no_blank_line s ->
  (forall a, s <> a ++ [newline]) ->
  Forall (fun l => l <> []) (tl (split newline s))
  /\ (forall c r, s = c :: r -> c <> newline ->
                  hd [] (split newline s) <> []).
Proof.
  induction s as [| c r IH]; intros Hnb Hlast.
  - cbn. split; [constructor | discriminate].
  - assert (Hnb' : no_blank_line r).
    { apply (no_blank_line_infix [c] r []). now rewrite app_nil_r. }
    assert (Hlast' : forall a, r <> a ++ [newline]).
    { intros a ->. now apply (Hlast (c :: a)). }
    destruct (IH Hnb' Hlast') as [IH1 IH2]. cbn [split].
    pose proof (split_nonempty newline r) as Hne.
    destruct (N.eqb_spec c newline) as [-> | Hc].
    + split; [| congruence]. cbn [tl].
      destruct (split newline r) as [| p ps] eqn:E; [congruence |].
      cbn [tl hd] in *. constructor; [| exact IH1].
      destruct r as [| c2 r2]; [now specialize (Hlast []) |].
      apply (IH2 c2 r2 eq_refl). intros ->. now apply (Hnb [] r2).
    + destruct (split newline r) as [| p ps]; [congruence |].
      cbn [tl hd] in *. split; [exact IH1 | discriminate].
Qed.

(** The lines of a block of a document are non-empty, unless the block is
    the empty string and has the one empty line. *)
Lemma block_lines_nonempty content block :
  In block (blocks_of content) ->
  block_lines block = [[]]
  \/ Forall (fun l => l <> []) (block_lines block).
Proof.
  intros Hin. unfold block_lines.
  destruct (strip block) as [| c r] eqn:E; [now left | right].
  assert (Hnb : no_blank_line (c :: r)).
  { rewrite <- E. now apply (blocks_no_blank_line content). }
  assert (Hlast : forall a, c :: r <> a ++ [newline]).
  { intros a H. rewrite <- E in H. now apply strip_last in H. }
  assert (Hc : c <> newline).
  { intros ->. now apply strip_head in E. }
  destruct (split_lines_nonempty (c :: r) Hnb Hlast) as [H1 H2].
  specialize (H2 c r eq_refl Hc).
  destruct (split newline (c :: r)) as [| p ps]; constructor; auto.
Qed.

Lemma filter_nonempty_all (lines : list str) :
  Forall (fun l => l <> []) lines -> filter nonempty lines = lines.
Proof.
  induction 1 as [| l lines Hl _ IH]; cbn; [reflexivity |].
  destruct l; [congruence |]. cbn. now rewrite IH.
Qed.

(** Counting the non-empty lines of a block or all its lines makes no
    difference to the test against 3. *)
Lemma nonempty_lines_lt_3 content block :
  In block (blocks_of content) ->
  (length (filter nonempty (block_lines block)) < 3)%nat
  <-> (length (block_lines block) < 3)%nat.
Proof.
  intros Hin. destruct (block_lines_nonempty content block Hin) as [-> | H].
  - cbn. lia.
  - now rewrite filter_nonempty_all.
Qed.

(** ** The timing line *)

Lemma span_spec (p : char -> bool) (s a b : str) :
  span p s = (a, b)
  <-> s = a ++ b
      /\ Forall (fun c => p c = true) a
      /\ (forall c r, b = c :: r -> p c = false).
Proof.
  split.
  - revert a b. induction s as [| c r IH]; intros a b H; cbn in H.
    + injection H as <- <-. repeat split; [constructor | discriminate].
    + destruct (p c) eqn:E.
      * destruct (span p r) as [a' b'] eqn:Er. injection H as <- <-.
        destruct (IH a' b' eq_refl) as (-> & Ha & Hb).
        repeat split; [now constructor | exact Hb].
      * injection H as <- <-. repeat split; [constructor |].
        intros c' r' H. now injection H as <- <-.
  - revert s. induction a as [| c a IH]; intros s (-> & Ha & Hb); cbn.
    + destruct b as [| c r]; [reflexivity |]. cbn.
      now rewrite (Hb c r eq_refl).
    + inversion Ha as [| ? ? Hc Ha']; subst. rewrite Hc.
      now rewrite (IH (a ++ b)) by auto.
Qed.

Lemma strip_prefix_spec (pre s r : str) :
  strip_prefix pre s = Some r <-> s = pre ++ r.
Proof.
  revert s. induction pre as [| a pre IH]; intros s; cbn.
  - split; [now intros [= ->] | now intros ->].
  - destruct s as [| c s]; [split; discriminate |].
    destruct (N.eqb_spec a c) as [-> | Hne].
    + rewrite IH. split; [now intros -> | now intros [= ->]].
    + split; [discriminate | intros [= -> _]; congruence].
Qed.

Lemma nonempty_true (s : str) : nonempty s = true <-> s <> [].
Proof. destruct s; cbn; split; congruence. Qed.

Lemma head_of_app (P : char -> Prop) (a b : str) :
  a <> [] -> Forall P a -> forall c r, a ++ b = c :: r -> P c.
Proof.
  intros Hne Ha c r H. destruct a as [| x a]; [congruence |].
  injection H as -> _. now inversion Ha.
Qed.

(** The match without backtracking finds the decomposition of the line
    along the pattern, and finds one whenever there is one. *)
Lemma match_timing_shape (line start_ts end_ts : str) :
  match_timing line = Some (start_ts, end_ts)
  <-> timing_shape line start_ts end_ts.
Proof.
  unfold match_timing, timing_shape. split.
  - destruct (span nonspace line) as [tok1 r1] eqn:E1.
    destruct (span isspace r1) as [ws1 r2] eqn:E2.
    destruct (strip_prefix (lit "-->") r2) as [r3 |] eqn:E3; [| discriminate].
    destruct (span isspace r3) as [ws2 r4] eqn:E4.
    destruct (span nonspace r4) as [tok2 rest] eqn:E5.
    destruct (nonempty tok1 && nonempty ws1 && nonempty ws2 && nonempty tok2)
      eqn:En; [| discriminate].
    intros [= <- <-].
    rewrite !andb_true_iff, !nonempty_true in En.
    apply span_spec in E1, E2, E4, E5. apply strip_prefix_spec in E3.
    destruct E1 as (-> & H1 & _), E2 as (-> & H2 & _),
             E4 as (-> & H4 & _), E5 as (-> & H5 & H6).
    subst r2. exists ws1, ws2, rest. tauto.
  - intros (ws1 & ws2 & rest & -> & Ha & Hsa & Hw1 & Hsw1 & Hw2 & Hsw2
            & Hb & Hsb & Hrest).
    assert (E1 : span nonspace
                   (start_ts ++ ws1 ++ lit "-->" ++ ws2 ++ end_ts ++ rest)
                 = (start_ts, ws1 ++ lit "-->" ++ ws2 ++ end_ts ++ rest)).
    { apply span_spec. repeat split; [exact Hsa |].
      intros c r H. unfold nonspace.
      now rewrite (head_of_app _ _ _ Hw1 Hsw1 c r H). }
    assert (E2 : span isspace (ws1 ++ lit "-->" ++ ws2 ++ end_ts ++ rest)
                 = (ws1, lit "-->" ++ ws2 ++ end_ts ++ rest)).
    { apply span_spec. repeat split; [exact Hsw1 |].
      intros c r H. now injection H as <- _. }
    assert (E3 : strip_prefix (lit "-->") (lit "-->" ++ ws2 ++ end_ts ++ rest)
                 = Some (ws2 ++ end_ts ++ rest)).
    { now apply strip_prefix_spec. }
    assert (E4 : span isspace (ws2 ++ end_ts ++ rest) = (ws2, end_ts ++ rest)).
    { apply span_spec. repeat split; [exact Hsw2 |].
      intros c r H.
      pose proof (head_of_app _ _ _ Hb Hsb c r H) as Hc. cbn beta in Hc.
      unfold nonspace in Hc. now apply negb_true_iff in Hc. }
    assert (E5 : span nonspace (end_ts ++ rest) = (end_ts, rest)).
    { apply span_spec. repeat split; [exact Hsb | exact Hrest]. }
    rewrite E1, E2, E3, E4, E5.
    apply nonempty_true in Ha, Hw1, Hw2, Hb. now rewrite Ha, Hw1, Hw2, Hb.
Qed.

Lemma match_timing_none (line : str) :
  match_timing line = None
  <-> forall start_ts end_ts, ~ timing_shape line start_ts end_ts.
Proof.
  split.
  - intros H a b Hs. apply match_timing_shape in Hs. congruence.
  - intros H. destruct (match_timing line) as [[a b] |] eqn:E; [| reflexivity].
    apply match_timing_shape in E. now apply H in E.
Qed.

(** ** Caption parser *)

Section ParserFacts.

Variable decimal : char -> option N.

Lemma parse_block_short block :
  (length (block_lines block) < 3)%nat ->
  parse_block decimal block = Returned None.
Proof.
  intros H. unfold parse_block. fold (block_lines block).
  apply Nat.ltb_lt in H. now rewrite H.
Qed.

Lemma parse_block_no_match block :
  match_timing (timing_line block) = None ->
  parse_block decimal block = Returned None.
Proof.
  intros H. unfold parse_block. fold (block_lines block).
  destruct (length (block_lines block) <? 3)%nat; [reflexivity |].
  fold (timing_line block). now rewrite H.
Qed.

Lemma parse_block_timed block start_ts end_ts :
  (3 <= length (block_lines block))%nat ->
  match_timing (timing_line block) = Some (start_ts, end_ts) ->
  parse_block decimal block
  = (st <- parse_srt_timestamp decimal start_ts ;;
     en <- parse_srt_timestamp decimal end_ts ;;
     Returned (Some {| start := st; end_ := en;
                       text := join [newline] (skipn 2 (block_lines block)) |})).
Proof.
  intros Hlen Hm. unfold parse_block. fold (block_lines block).
  apply Nat.ltb_ge in Hlen. rewrite Hlen.
  fold (timing_line block). now rewrite Hm.
Qed.

Lemma parse_block_skippable content block :
  In block (blocks_of content) ->
  skippable block ->
  parse_block decimal block = Returned None.
Proof.
  intros Hin [Hshort | Hno].
  - apply parse_block_short. now apply (nonempty_lines_lt_3 content).
  - apply parse_block_no_match. now apply match_timing_none.
Qed.

Lemma parse_block_raises block :
  raises (parse_block decimal block)
  <-> exists start_ts end_ts,
      (3 <= length (block_lines block))%nat
      /\ timing_shape (timing_line block) start_ts end_ts
      /\ (raises (parse_srt_timestamp decimal start_ts)
          \/ raises (parse_srt_timestamp decimal end_ts)).
Proof.
  destruct (Nat.ltb_spec (length (block_lines block)) 3) as [Hlt | Hge].
  { rewrite parse_block_short by exact Hlt. split.
    - intros [e He]. discriminate.
    - intros (a & b & H & _). lia. }
  destruct (match_timing (timing_line block)) as [[a b] |] eqn:Hm.
  2:{ rewrite parse_block_no_match by exact Hm. split.
      - intros [e He]. discriminate.
      - intros (a & b & _ & H & _). apply match_timing_shape in H.
        congruence. }
  rewrite (parse_block_timed block a b Hge Hm). split.
  - intros [e He]. exists a, b. split; [exact Hge |].
    split; [now apply match_timing_shape |].
    destruct (parse_srt_timestamp decimal a) as [st | e1]; [| left; now exists e1].
    destruct (parse_srt_timestamp decimal b) as [en | e2]; [| right; now exists e2].
    discriminate.
  - intros (a' & b' & _ & Heq & Hr). apply match_timing_shape in Heq.
    rewrite Hm in Heq. injection Heq as <- <-.
    destruct Hr as [[e He] | [e He]]; rewrite He.
    + now exists e.
    + destruct (parse_srt_timestamp decimal a); cbn; [now exists e | now eexists].
Qed.

Lemma parse_block_error block e :
  parse_block decimal block = Raised e -> e = ValueError.
Proof.
  unfold parse_block.
  destruct (length (split newline (strip block)) <? 3)%nat; [discriminate |].
  destruct (match_timing _) as [[a b] |]; [| discriminate].
  destruct (parse_srt_timestamp decimal a) as [st | e1] eqn:E1; cbn.
  2:{ intros H. injection H as <-. eapply parse_srt_timestamp_error; eauto. }
  destruct (parse_srt_timestamp decimal b) as [en | e2] eqn:E2; cbn.
  2:{ intros H. injection H as <-. eapply parse_srt_timestamp_error; eauto. }
  discriminate.
Qed.

Lemma parse_blocks_raises blocks : forall segments,
  raises (parse_blocks decimal blocks segments)
  <-> exists block, In block blocks /\ raises (parse_block decimal block).
Proof.
  induction blocks as [| b rest IH]; intros segments; cbn [parse_blocks].
  - split; [intros [e He]; discriminate | intros (b & [] & _)].
  - destruct (parse_block decimal b) as [r | e] eqn:E; cbn [bind].
    + rewrite IH. split.
      * intros (b' & Hin & Hr). exists b'. split; [now right | exact Hr].
      * intros (b' & [<- | Hin] & Hr).
        -- rewrite E in Hr. destruct Hr as [e He]. discriminate.
        -- now exists b'.
    + split; [| intros _; now exists e].
      intros _. exists b. split; [now left |]. rewrite E. now exists e.
Qed.

Lemma parse_blocks_error blocks : forall segments e,
  parse_blocks decimal blocks segments = Raised e -> e = ValueError.
Proof.
  induction blocks as [| b rest IH]; intros segments e; cbn [parse_blocks].
  - discriminate.
  - destruct (parse_block decimal b) as [r | e'] eqn:E; cbn [bind].
    + apply IH.
    + intros H. injection H as <-. now apply (parse_block_error b).
Qed.

Lemma parse_blocks_skip pre : forall block post segments,
  parse_block decimal block = Returned None ->
  parse_blocks decimal (pre ++ block :: post) segments
  = parse_blocks decimal (pre ++ post) segments.
Proof.
  induction pre as [| b pre IH]; intros block post segments H; cbn.
  - now rewrite H.
  - destruct (parse_block decimal b) as [r | e]; cbn; [| reflexivity].
    now apply IH.
Qed.

Lemma parse_blocks_all_skipped blocks : forall segments,
  (forall block, In block blocks -> parse_block decimal block = Returned None) ->
  parse_blocks decimal blocks segments = Returned segments.
Proof.
  induction blocks as [| b rest IH]; intros segments H; cbn; [reflexivity |].
  rewrite (H b (or_introl eq_refl)). cbn. apply IH.
  intros b' Hin. apply H. now right.
Qed.

End ParserFacts.

(** C5: a block of the document with fewer than 3 non-empty lines, or whose
    second line is not of the shape [<token> --> <token>], is passed over
    without an error and the parse is the parse of the document without it;
    a document all of whose blocks are such parses to the empty list; so
    does the document made of one 2-line block. *)
Theorem parser_skips_malformed_blocks :
  forall (decimal : char -> option N) (content : str),
    (forall block,
        In block (blocks_of content) -> skippable block ->
        parse_block decimal block = Returned None)
    /\ (forall pre block post,
           blocks_of content = pre ++ block :: post -> skippable block ->
           parse_srt_file decimal content
           = parse_blocks decimal (pre ++ post) [])
    /\ ((forall block, In block (blocks_of content) -> skippable block) ->
        parse_srt_file decimal content = Returned [])
    /\ parse_srt_file decimal
         (join [newline] [lit "1"; lit "00:00:00,000 --> 00:00:01,000"; []])
       = Returned [].
Proof.
  intros decimal content. split; [| split; [| split]].
  - intros block Hin Hskip. now apply (parse_block_skippable decimal content).
  - intros pre block post Hb Hskip. unfold parse_srt_file. rewrite Hb.
    apply parse_blocks_skip. apply (parse_block_skippable decimal content).
    + rewrite Hb. apply in_elt.
    + exact Hskip.
  - intros Hall. unfold parse_srt_file. apply parse_blocks_all_skipped.
    intros block Hin. apply (parse_block_skippable decimal content); auto.
  - vm_compute. reflexivity.
Qed.

Lemma parser_skips_malformed_blocks_witness :
  blocks_of sample_document
  = [join [newline]
       [lit "1"; lit "00:00:00,000 --> 00:00:01,000"; lit "Hello"]]
    ++ join [newline] [lit "2"; lit "00:00:01,200 --> 00:00:02,000"] :: []
  /\ parse_srt_file ascii_decimal sample_document
     = Returned [ {| start := 0 # 1000; end_ := 1000 # 1000;
                     text := lit "Hello" |} ].
Proof.
  assert (Hb : blocks_of sample_document
               = [join [newline]
                    [lit "1"; lit "00:00:00,000 --> 00:00:01,000"; lit "Hello"]]
                 ++ join [newline] [lit "2"; lit "00:00:01,200 --> 00:00:02,000"]
                 :: []) by (vm_compute; reflexivity).
  split; [exact Hb |].
  rewrite (proj1 (proj2 (parser_skips_malformed_blocks ascii_decimal
                           sample_document)) _ _ _ Hb).
  - vm_compute. reflexivity.
  - left. vm_compute. lia.
Defined.



(** ** Decimal digits *)

Lemma digits_value_snoc ds c :
  digits_value (ds ++ [c]) = (10 * digits_value ds + (c - 48))%N.
Proof. unfold digits_value. now rewrite fold_left_app. Qed.

Lemma is_digit_cases c :
  is_digit c ->
  In c [48; 49; 50; 51; 52; 53; 54; 55; 56; 57]%N.
Proof. unfold is_digit. cbn. lia. Qed.

Ltac digit_cases H :=
  apply is_digit_cases in H; cbn [In] in H;
  repeat (destruct H as [<- | H]); [.. | contradiction].

Lemma digit_not_space c : is_digit c -> isspace c = false.
Proof. intros H. digit_cases H; reflexivity. Qed.

Lemma digit_not_mark c :
  is_digit c ->
  c <> colon /\ c <> comma /\ (c =? underscore)%N = false
  /\ (c =? minus)%N = false /\ (c =? plus)%N = false.
Proof. intros H. digit_cases H; repeat split; discriminate. Qed.

Lemma digits_aux_spec fuel : forall n acc,
  (0 < fuel)%nat ->
  (n < 2 ^ N.of_nat fuel)%N ->
  exists ds,
    digits_aux fuel n acc = ds ++ acc
    /\ ds <> []
    /\ Forall is_digit ds
    /\ digits_value ds = n.
Proof.
  induction fuel as [| fuel IH]; intros n acc Hfuel Hn; [lia |].
  cbn [digits_aux].
  assert (Hd : is_digit (zero + n mod 10)%N).
  { unfold is_digit. change zero with 48%N.
    pose proof (N.mod_upper_bound n 10 ltac:(discriminate)) as H.
    revert H. generalize (n mod 10)%N. intros r Hr. lia. }
  assert (Hv : (zero + n mod 10 - 48 = n mod 10)%N).
  { change zero with 48%N. generalize (n mod 10)%N. intros r. lia. }
  destruct (N.ltb_spec n 10) as [Hlt | Hge].
  - exists [(zero + n mod 10)%N]. repeat split.
    + discriminate.
    + now constructor.
    + unfold digits_value. cbn [fold_left].
      rewrite Hv, N.mod_small by exact Hlt. lia.
  - assert (Hfuel' : (0 < fuel)%nat).
    { destruct fuel; [| lia]. cbn in Hn. lia. }
    assert (Hn' : (n / 10 < 2 ^ N.of_nat fuel)%N).
    { rewrite Nat2N.inj_succ, N.pow_succ_r' in Hn.
      apply N.Div0.div_lt_upper_bound. lia. }
    destruct (IH (n / 10)%N ((zero + n mod 10)%N :: acc) Hfuel' Hn')
      as (ds & Heq & Hne & Hall & Hval).
    exists (ds ++ [(zero + n mod 10)%N]). repeat split.
    + rewrite Heq. now rewrite <- app_assoc.
    + now destruct ds.
    + apply Forall_app. split; [exact Hall | now constructor].
    + rewrite digits_value_snoc, Hval, Hv. pose proof (N.div_mod n 10 ltac:(discriminate)) as H.
      revert H. generalize (n mod 10)%N (n / 10)%N. intros r q H. lia.
Qed.

Lemma digits_spec n :
  digits n <> [] /\ Forall is_digit (digits n) /\ digits_value (digits n) = n.
Proof.
  unfold digits.
  destruct (digits_aux_spec (S (N.to_nat (N.log2 n))) n []) as (ds & H & Hrest).
  - lia.
  - rewrite Nat2N.inj_succ, N2Nat.id.
    destruct (N.eq_dec n 0) as [-> | Hn]; [reflexivity |].
    apply N.log2_spec. lia.
  - rewrite H, app_nil_r. exact Hrest.
Qed.

Lemma digits_value_zeros k ds :
  digits_value (repeat zero k ++ ds) = digits_value ds.
Proof.
  unfold digits_value. rewrite fold_left_app. f_equal.
  induction k as [| k IH]; cbn; [reflexivity | exact IH].
Qed.

Lemma format_d_nonneg width z :
  (0 <= z)%Z ->
  format_d width z <> []
  /\ Forall is_digit (format_d width z)
  /\ Z.of_N (digits_value (format_d width z)) = z.
Proof.
  intros Hz. unfold format_d.
  destruct (Z.ltb_spec z 0) as [Hneg | _]; [lia |].
  destruct (digits_spec (Z.abs_N z)) as (Hne & Hall & Hval).
  repeat split.
  - intros H. apply app_eq_nil in H. tauto.
  - apply Forall_app. split; [| exact Hall].
    apply Forall_forall. intros c Hc. apply repeat_spec in Hc. subst c.
    unfold is_digit. change zero with 48%N. lia.
  - rewrite digits_value_zeros, Hval, N2Z.inj_abs_N. lia.
Qed.

Section IntFacts.

Variable decimal : char -> option N.

(** The decimal table gives the ASCII digits their values. *)
Hypothesis decimal_ascii :
  forall c, is_digit c -> decimal c = Some (c - 48)%N.

Lemma int_digits_digits ds : forall acc after_digit,
  Forall is_digit ds ->
  ds <> [] \/ after_digit = true ->
  int_digits decimal acc after_digit ds
  = Some (fold_left (fun a c => (10 * a + (c - 48))%N) ds acc).
Proof.
  induction ds as [| c ds IH]; intros acc after_digit Hall Hne.
  - destruct Hne as [Hne | ->]; [congruence | reflexivity].
  - inversion Hall as [| ? ? Hc Hds]; subst. cbn [int_digits fold_left].
    destruct (digit_not_mark c Hc) as (_ & _ & -> & _).
    rewrite (decimal_ascii c Hc). apply IH; auto.
Qed.

Lemma py_int_digits ds :
  ds <> [] -> Forall is_digit ds ->
  py_int decimal ds = Returned (Z.of_N (digits_value ds)).
Proof.
  intros Hne Hall. unfold py_int.
  rewrite strip_nonspace.
  2:{ eapply Forall_impl; [| exact Hall]. apply digit_not_space. }
  destruct ds as [| c r]; [congruence |].
  inversion Hall as [| ? ? Hc _]; subst.
  destruct (digit_not_mark c Hc) as (_ & _ & _ & -> & ->).
  rewrite int_digits_digits by (auto; left; discriminate).
  reflexivity.
Qed.

Lemma py_int_format_d width z :
  (0 <= z)%Z -> py_int decimal (format_d width z) = Returned z.
Proof.
  intros Hz. destruct (format_d_nonneg width z Hz) as (Hne & Hall & Hval).
  now rewrite py_int_digits, Hval.
Qed.

Lemma format_d_no_mark width z :
  (0 <= z)%Z ->
  ~ In colon (format_d width z) /\ ~ In comma (format_d width z).
Proof.
  intros Hz. destruct (format_d_nonneg width z Hz) as (_ & Hall & _).
  rewrite Forall_forall in Hall.
  split; intros H; apply Hall in H; apply digit_not_mark in H; tauto.
Qed.

Lemma parse_formatted_fields h m s ms :
  (0 <= h)%Z -> (0 <= m)%Z -> (0 <= s)%Z -> (0 <= ms)%Z ->
  parse_srt_timestamp decimal
    (format_d 2 h ++ colon :: format_d 2 m ++ colon :: format_d 2 s
       ++ comma :: format_d 3 ms)
  = Returned (inject_Z (h * 3600 + m * 60 + s) + inject_Z ms / 1000)%Q.
Proof.
  intros Hh Hm Hs Hms.
  destruct (format_d_no_mark 2 h Hh) as [Hh1 Hh2].
  destruct (format_d_no_mark 2 m Hm) as [Hm1 Hm2].
  destruct (format_d_no_mark 2 s Hs) as [Hs1 Hs2].
  destruct (format_d_no_mark 3 ms Hms) as [_ Hms2].
  assert (Hcomma : comma <> colon) by (vm_compute; discriminate).
  unfold parse_srt_timestamp.
  assert (E1 : split comma
                 (format_d 2 h ++ colon :: format_d 2 m ++ colon :: format_d 2 s
                    ++ comma :: format_d 3 ms)
               = [format_d 2 h ++ colon :: format_d 2 m ++ colon :: format_d 2 s;
                  format_d 3 ms]).
  { apply split_two. split.
    - now rewrite <- !app_assoc, <- !app_comm_cons, <- !app_assoc.
    - repeat (rewrite not_in_app || rewrite not_in_cons).
      intuition congruence. }
  rewrite E1.
  assert (E2 : split colon
                 (format_d 2 h ++ colon :: format_d 2 m ++ colon :: format_d 2 s)
               = [format_d 2 h; format_d 2 m; format_d 2 s]).
  { apply split_three. auto. }
  rewrite E2, !py_int_format_d by assumption. reflexivity.
Qed.

End IntFacts.

(** ** Floors and rounding *)

Lemma inject_Z_minus (x y : Z) :
  inject_Z (x - y) = (inject_Z x - inject_Z y)%Q.
Proof.
  unfold Z.sub, Qminus. now rewrite inject_Z_plus, inject_Z_opp.
Qed.

Lemma Qfloor_unique (x : Q) (z : Z) :
  (inject_Z z <= x)%Q -> (x < inject_Z (z + 1))%Q -> Qfloor x = z.
Proof.
  intros Hle Hlt.
  pose proof (Qfloor_resp_le _ _ Hle) as H1. rewrite Qfloor_Z in H1.
  pose proof (Qfloor_le x) as H2.
  assert (H3 : (inject_Z (Qfloor x) < inject_Z (z + 1))%Q)
    by (eapply Qle_lt_trans; eauto).
  rewrite <- Zlt_Qlt in H3. lia.
Qed.

Lemma Qfloor_bounds (x : Q) :
  (inject_Z (Qfloor x) <= x)%Q /\ (x < inject_Z (Qfloor x) + 1)%Q.
Proof.
  split; [apply Qfloor_le |].
  pose proof (Qlt_floor x) as H. now rewrite inject_Z_plus in H.
Qed.

Lemma Qfloor_sub_mul (x : Q) (n z : Z) :
  Qfloor (x - inject_Z n * inject_Z z) = (Qfloor x - n * z)%Z.
Proof.
  destruct (Qfloor_bounds x) as [H1 H2].
  apply Qfloor_unique.
  - rewrite inject_Z_minus, inject_Z_mult.
    generalize (inject_Z n * inject_Z z)%Q. intros p. lra.
  - rewrite inject_Z_plus, inject_Z_minus, inject_Z_mult.
    change (inject_Z 1) with 1%Q.
    generalize (inject_Z n * inject_Z z)%Q. intros p. lra.
Qed.

Lemma Qfloor_div (x : Q) (n : Z) :
  (0 < n)%Z -> Qfloor (x / inject_Z n) = (Qfloor x / n)%Z.
Proof.
  intros Hn. destruct (Qfloor_bounds x) as [H1 H2].
  assert (Hq : (0 < inject_Z n)%Q).
  { change (inject_Z 0 < inject_Z n)%Q. now rewrite <- Zlt_Qlt. }
  pose proof (Z.mul_div_le (Qfloor x) n Hn) as Hlo.
  pose proof (Z.mul_succ_div_gt (Qfloor x) n Hn) as Hhi.
  apply Qfloor_unique.
  - apply Qle_shift_div_l; [exact Hq |]. rewrite <- inject_Z_mult.
    eapply Qle_trans; [| exact H1]. rewrite <- Zle_Qle. lia.
  - apply Qlt_shift_div_r; [exact Hq |]. rewrite <- inject_Z_mult.
    eapply Qlt_le_trans; [exact H2 |].
    change 1%Q with (inject_Z 1). rewrite <- inject_Z_plus, <- Zle_Qle. lia.
Qed.

Lemma int_of_float_floor (x : Q) :
  (0 <= Qfloor x)%Z -> int_of_float x = Qfloor x.
Proof.
  intros H. unfold int_of_float.
  destruct (Qle_bool 0 x) eqn:E; [reflexivity |].
  exfalso. apply not_true_iff_false in E. apply E. apply Qle_bool_iff.
  eapply Qle_trans; [| apply Qfloor_le].
  change (inject_Z 0 <= inject_Z (Qfloor x))%Q. now rewrite <- Zle_Qle.
Qed.

Lemma int_of_float_Z (z : Z) : int_of_float (inject_Z z) = z.
Proof.
  unfold int_of_float. rewrite Qfloor_Z, Qceiling_Z. now destruct (Qle_bool _ _).
Qed.

Lemma py_round_cases (y : Q) :
  py_round y = Qfloor y \/ py_round y = (Qfloor y + 1)%Z.
Proof.
  unfold py_round.
  destruct (y - inject_Z (Qfloor y) ?= 1 # 2)%Q; auto.
  destruct (Z.even (Qfloor y)); auto.
Qed.

Lemma py_round_near (y : Q) :
  (inject_Z (py_round y) - (1 # 2) <= y)%Q
  /\ (y <= inject_Z (py_round y) + (1 # 2))%Q.
Proof.
  destruct (Qfloor_bounds y) as [H1 H2]. unfold py_round.
  destruct (y - inject_Z (Qfloor y) ?= 1 # 2)%Q eqn:E.
  - apply Qeq_alt in E.
    destruct (Z.even (Qfloor y)); rewrite ?inject_Z_plus;
      change (inject_Z 1) with 1%Q; split; lra.
  - apply Qlt_alt in E. split; lra.
  - apply Qgt_alt in E. rewrite inject_Z_plus.
    change (inject_Z 1) with 1%Q. split; lra.
Qed.

Lemma py_round_Z (y : Q) (z : Z) : (y == inject_Z z)%Q -> py_round y = z.
Proof.
  intros Hy. assert (Hf : Qfloor y = z) by (rewrite Hy; apply Qfloor_Z).
  unfold py_round. rewrite Hf.
  assert (E : (y - inject_Z z ?= 1 # 2)%Q = Lt).
  { apply (proj1 (Qlt_alt _ _)). lra. }
  now rewrite E.
Qed.

(** The four fields of a formatted non-negative time. *)
Lemma format_fields (sep : char) (t : Q) :
  (0 <= t)%Q ->
  let T := Qfloor t in
  let ms := py_round ((t - inject_Z T) * 1000)%Q in
  format_timestamp sep t
  = format_d 2 (T / 3600) ++ colon :: format_d 2 (T mod 3600 / 60)
      ++ colon :: format_d 2 (T mod 60) ++ sep :: format_d 3 ms
    /\ (0 <= T)%Z /\ (0 <= ms)%Z.
Proof.
  intros Ht T ms.
  assert (HT : (0 <= T)%Z).
  { apply (Qfloor_resp_le 0 t) in Ht. exact Ht. }
  assert (Hh : int_of_float (floordiv t 3600) = (T / 3600)%Z).
  { unfold floordiv. rewrite int_of_float_Z.
    change 3600%Q with (inject_Z 3600). now apply Qfloor_div. }
  assert (Hm : int_of_float (floordiv (fmod t 3600) 60) = (T mod 3600 / 60)%Z).
  { unfold floordiv at 1. rewrite int_of_float_Z.
    change 60%Q with (inject_Z 60). rewrite Qfloor_div by lia.
    unfold fmod, floordiv. change 3600%Q with (inject_Z 3600).
    rewrite Qfloor_sub_mul, Qfloor_div by lia.
    fold T. now rewrite Z.mod_eq by lia. }
  assert (Hs : int_of_float (fmod t 60) = (T mod 60)%Z).
  { assert (Hf : Qfloor (fmod t 60) = (T mod 60)%Z).
    { unfold fmod, floordiv. change 60%Q with (inject_Z 60).
      rewrite Qfloor_sub_mul, Qfloor_div by lia.
      fold T. now rewrite Z.mod_eq by lia. }
    rewrite int_of_float_floor; [exact Hf |].
    rewrite Hf. apply Z.mod_pos_bound. lia. }
  assert (Hi : int_of_float t = T) by now apply int_of_float_floor.
  assert (Hms : (0 <= ms)%Z).
  { destruct (Qfloor_bounds t) as [H1 H2]. fold T in H1, H2.
    assert (Hy : (0 <= (t - inject_Z T) * 1000)%Q) by lra.
    apply (Qfloor_resp_le 0) in Hy. change (Qfloor 0) with 0%Z in Hy.
    unfold ms. destruct (py_round_cases ((t - inject_Z T) * 1000)%Q); lia. }
  split; [| split; assumption].
  unfold format_timestamp. rewrite Hh, Hm, Hs, Hi. reflexivity.
Qed.

Lemma hms_recompose (T : Z) :
  (T / 3600 * 3600 + T mod 3600 / 60 * 60 + T mod 60 = T)%Z.
Proof. Z.to_euclidean_division_equations. lia. Qed.

(** ** Timestamp codec *)


Lemma ascii_decimal_digit (c : char) :
  is_digit c -> ascii_decimal c = Some (c - 48)%N.
Proof.
  unfold is_digit, ascii_decimal. intros [H1 H2].
  apply N.leb_le in H1, H2. now rewrite H1, H2.
Qed.


(** C4, where the code departs from it: a time whose fraction rounds up to
    1000 milliseconds is written with four millisecond digits and without
    the carry into the seconds, in both styles, while the scenario of the
    claim comes out as stated. *)
Theorem format_millisecond_overflow :
  format_srt_timestamp (9996 # 10000) = lit "00:00:00,1000"
  /\ format_vtt_timestamp (9996 # 10000) = lit "00:00:00.1000"
  /\ format_srt_timestamp (36614567 # 10000) = lit "01:01:01,457".
Proof. repeat split; vm_compute; reflexivity. Qed.

(** * Further properties *)

(** ** Transliteration selector *)

Lemma try_schemes_maximum (transliterate : transliterator) (txt : str)
  (schemes : list scheme) : forall b n,
  exists b' n',
    try_schemes transliterate txt schemes (b, n) = Returned (b', n')
    /\ (n <= n')%nat
    /\ (forall sch, In sch schemes -> (score transliterate txt sch <= n')%nat)
    /\ ((b' = b /\ n' = n)
        \/ (exists sch, In sch schemes
                        /\ transliterate txt sch DEVANAGARI = Returned b'
                        /\ devanagari_count b' = n')).
Proof.
  induction schemes as [| s rest IH]; intros b n.
  - exists b, n. cbn. repeat split; auto. intros sch [].
  - cbn [try_schemes]. unfold try_scheme, score at 1.
    destruct (transliterate txt s DEVANAGARI) as [result | e] eqn:E; run.
    + destruct (Nat.ltb_spec n (devanagari_count result)) as [Hlt | Hge].
      * destruct (IH result (devanagari_count result))
          as (b' & n' & Hrun & Hle & Hmax & Hsrc).
        exists b', n'. split; [exact Hrun |]. split; [lia |]. split.
        -- intros sch [<- | Hin]; [| now apply Hmax].
           unfold score. rewrite E. exact Hle.
        -- right. destruct Hsrc as [[-> <-] | (sch & Hin & Hr & Hc)].
           ++ exists s. split; [now left | auto].
           ++ exists sch. split; [now right | auto].
      * destruct (IH b n) as (b' & n' & Hrun & Hle & Hmax & Hsrc).
        exists b', n'. split; [exact Hrun |]. split; [exact Hle |]. split.
        -- intros sch [<- | Hin]; [| now apply Hmax].
           unfold score. rewrite E. lia.
        -- destruct Hsrc as [H | (sch & Hin & Hr & Hc)]; [now left | right].
           exists sch. split; [now right | auto].
    + destruct (IH b n) as (b' & n' & Hrun & Hle & Hmax & Hsrc).
      exists b', n'. split; [exact Hrun |]. split; [exact Hle |]. split.
      * intros sch [<- | Hin]; [| now apply Hmax].
        unfold score. rewrite E. lia.
      * destruct Hsrc as [H | (sch & Hin & Hr & Hc)]; [now left | right].
        exists sch. split; [now right | auto].
Qed.

(** X1: what the selector returns is the input text or the result of one of
    the schemes, and it has at least as many Devanagari characters as the
    result of any scheme of the list. *)
Theorem select_best_is_maximal :
  forall (transliterate : transliterator) (txt : str) (schemes : list scheme),
  exists result,
    select_best transliterate txt schemes = Returned result
    /\ (result = txt
        \/ exists sch, In sch schemes
                       /\ transliterate txt sch DEVANAGARI = Returned result)
    /\ (forall sch other,
           In sch schemes ->
           transliterate txt sch DEVANAGARI = Returned other ->
           (devanagari_count other <= devanagari_count result)%nat).
Proof.
  intros transliterate txt schemes. unfold select_best.
  destruct (try_schemes_maximum transliterate txt schemes txt 0%nat)
    as (b' & n' & Hrun & _ & Hmax & Hsrc).
  rewrite Hrun. cbn. exists b'. split; [reflexivity |]. split.
  - destruct Hsrc as [[-> _] | (sch & Hin & Hr & _)]; [now left | right].
    now exists sch.
  - intros sch other Hin Hother. specialize (Hmax sch Hin).
    unfold score in Hmax. rewrite Hother in Hmax.
    destruct Hsrc as [[_ ->] | (_ & _ & _ & <-)]; lia.
Qed.

Lemma segment_eta (seg : segment) :
  {| start := start seg; end_ := end_ seg; text := text seg |} = seg.
Proof. now destruct seg. Qed.

(** X2: when the transliteration library is not installed, or when for
    every segment no scheme produces a Devanagari character, the segments
    come back unchanged. *)
Theorem transliterate_segments_fallback :
  forall (sanscript : option transliterator) (segments : list segment),
    (sanscript = None
     \/ exists transliterate,
         sanscript = Some transliterate
         /\ forall seg sch,
             In seg segments -> In sch [ITRANS; HK; IAST] ->
             score transliterate (text seg) sch = 0%nat) ->
    transliterate_segments sanscript segments = Returned segments.
Proof.
  intros sanscript segments H.
  assert (Htext : forall seg, In seg segments ->
            transliterate_to_devanagari sanscript (text seg)
            = Returned (text seg)).
  { intros seg Hin. destruct H as [-> | (tr & -> & Hz)]; [reflexivity |].
    cbn. unfold select_best. rewrite try_schemes_low; [reflexivity |].
    intros sch Hs. rewrite (Hz seg sch Hin Hs). lia. }
  clear H. induction segments as [| seg rest IH]; [reflexivity |].
  cbn [transliterate_segments].
  rewrite (Htext seg (or_introl eq_refl)). cbn [bind].
  rewrite IH by (intros s Hs; apply Htext; now right).
  cbn [bind]. now rewrite segment_eta.
Qed.

Lemma transliterate_segments_fallback_witness :
  transliterate_segments (Some failing_transliterate) [hello; world]
  = Returned [hello; world].
Proof.
  apply transliterate_segments_fallback. right.
  exists failing_transliterate. split; [reflexivity |].
  intros seg sch _ _. reflexivity.
Defined.

(** ** Timestamp codec *)

Lemma format_d_chars (width : nat) (z : Z) :
  Forall (fun c => is_digit c \/ c = minus) (format_d width z).
Proof.
  unfold format_d. destruct (digits_spec (Z.abs_N z)) as (_ & Hall & _).
  assert (Hzeros : forall k, Forall (fun c => is_digit c \/ c = minus)
                               (repeat zero k ++ digits (Z.abs_N z))).
  { intros k. apply Forall_app. split.
    - apply Forall_forall. intros c Hc. apply repeat_spec in Hc. subst c.
      left. unfold is_digit. change zero with 48%N. lia.
    - eapply Forall_impl; [| exact Hall]. intros c Hc. now left. }
  destruct (z <? 0)%Z; [constructor; [now right |] |]; apply Hzeros.
Qed.

Lemma format_d_no_comma (width : nat) (z : Z) : ~ In comma (format_d width z).
Proof.
  intros H. pose proof (format_d_chars width z) as Hall.
  rewrite Forall_forall in Hall. destruct (Hall _ H) as [Hd | Hm].
  - apply digit_not_mark in Hd. tauto.
  - discriminate.
Qed.

(** X3: the period-style text of a time is never accepted by the timestamp
    parser, which reads the comma style only: parsing it raises
    [ValueError] for every time. *)
Theorem vtt_timestamp_not_parsed :
  forall (decimal : char -> option N) (t : Q),
    parse_srt_timestamp decimal (format_vtt_timestamp t) = Raised ValueError.
Proof.
  intros decimal t. unfold parse_srt_timestamp.
  rewrite split_no_occurrence; [reflexivity |].
  unfold format_vtt_timestamp, format_timestamp.
  repeat (rewrite not_in_app || rewrite not_in_cons).
  pose proof format_d_no_comma as H.
  repeat split; auto; discriminate.
Qed.

(** ** Caption merger *)

Section MergerMore.

Variable max_chars : Z.
Variable max_gap : Q.

Lemma scan_always_flushes rest : forall merged current,
  always_flushes max_chars max_gap current rest ->
  fst (fold_left (merge_step max_chars max_gap) rest (merged, current))
    ++ [snd (fold_left (merge_step max_chars max_gap) rest (merged, current))]
  = merged ++ current :: map seed rest.
Proof.
  induction rest as [| seg rest IH]; intros merged current H.
  - reflexivity.
  - destruct H as [Hno Hrest]. cbn [fold_left map].
    unfold merge_step at 2 4. rewrite Hno.
    change {| start := start seg; end_ := end_ seg; text := strip (text seg) |}
      with (seed seg).
    rewrite (IH (merged ++ [current]) (seed seg) Hrest).
    now rewrite <- app_assoc.
Qed.

Lemma neighbours_always_flushes first rest :
  neighbours (fun a b => ~ merge_conditions max_chars max_gap (seed a) b)
    (first :: rest) ->
  always_flushes max_chars max_gap (seed first) rest.
Proof.
  revert first. induction rest as [| seg rest IH]; intros first H.
  - exact I.
  - destruct H as [Hno Hrest]. split; [| now apply IH].
    apply not_true_iff_false. intros Hm. apply Hno.
    now apply should_merge_spec.
Qed.

Lemma merge_captions_unmergeable segments :
  neighbours (fun a b => ~ merge_conditions max_chars max_gap (seed a) b)
    segments ->
  merge_captions max_chars max_gap segments = map seed segments.
Proof.
  destruct segments as [| first rest]; [reflexivity |]. intros H.
  rewrite merge_captions_scan. unfold scan.
  rewrite (scan_always_flushes rest [] (seed first)); [reflexivity |].
  now apply neighbours_always_flushes.
Qed.

End MergerMore.



Lemma rstrip_strip (s : str) : rstrip (strip s) = strip s.
Proof.
  unfold strip, rstrip. rewrite rev_involutive.
  destruct (lstrip (rev (lstrip s))) as [| c r] eqn:E; [reflexivity |].
  pose proof (lstrip_head _ _ _ E) as Hc.
  cbn [lstrip]. now rewrite Hc.
Qed.

(** X5: a threshold [max_chars] below 1 switches merging off, and so does
    input in which every segment ends, once stripped, in one of [.], [?]
    and [!]: the output is then the input with each text stripped. *)
Theorem merge_switched_off :
  forall (max_chars : Z) (max_gap : Q) (segments : list segment),
    ((max_chars < 1)%Z
     \/ Forall (fun seg => ends_with_terminal (strip (text seg))) segments) ->
    merge_captions max_chars max_gap segments = map seed segments.
Proof.
  intros max_chars max_gap segments H. apply merge_captions_unmergeable.
  induction segments as [| a [| b rest] IH]; try exact I.
  split.
  - intros (Hterm & _ & Hlen). destruct H as [Hmc | Hall].
    + rewrite length_app in Hlen. cbn [length app] in Hlen. lia.
    + apply Hterm. cbn [seed text]. rewrite rstrip_strip.
      now inversion Hall.
  - apply IH. destruct H as [Hmc | Hall]; [now left | right].
    now inversion Hall.
Qed.

Lemma merge_switched_off_witness :
  merge_captions 0 1 [hello; world] = [seed hello; seed world].
Proof. apply merge_switched_off. left. reflexivity. Defined.

Lemma neighbours_snoc {A} (R : A -> A -> Prop) (l : list A) (x d : A) :
  neighbours R l -> (l <> [] -> R (last l d) x) -> neighbours R (l ++ [x]).
Proof.
  induction l as [| a l IH]; intros Hl Hx; [exact I |].
  destruct l as [| b l].
  - cbn. split; [apply Hx; discriminate | exact I].
  - destruct Hl as [Hab Hl]. split; [exact Hab |].
    apply IH; [exact Hl |]. intros _. apply Hx. discriminate.
Qed.

Lemma neighbours_cons_hd {A} (R : A -> A -> Prop) (a d : A) (l : list A) :
  l <> [] -> R a (hd d l) -> neighbours R l -> neighbours R (a :: l).
Proof. destruct l as [| b l]; [congruence |]. cbn. auto. Qed.

Section MergerGroups.

Variable max_chars : Z.
Variable max_gap : Q.

Let step := merge_step max_chars max_gap.

(** The flush that separates two neighbouring output segments. *)
Let flushed (g g' : segment * list segment) : Prop :=
  should_merge max_chars max_gap (constituents_segment g) (fst g') = false.

Lemma group_within_merge first others seg :
  group_within max_chars max_gap (first, others) ->
  should_merge max_chars max_gap (constituents_segment (first, others)) seg
  = true ->
  group_within max_chars max_gap (first, others ++ [seg]).
Proof.
  intros Hg Hm _. cbn [fst snd].
  pose proof (merge_step_merge max_chars max_gap [] first others seg Hm) as Hs.
  unfold merge_step in Hs. rewrite Hm in Hs.
  apply (f_equal (fun st => text (snd st))) in Hs. cbn [snd text] in Hs.
  unfold combined_text in Hs.
  apply should_merge_spec in Hm. destruct Hm as (_ & Hgap & Hlen).
  split.
  - cbn [app] in Hlen. rewrite Hs in Hlen. exact Hlen.
  - change (first :: others ++ [seg]) with ((first :: others) ++ [seg]).
    apply (neighbours_snoc _ _ _ first).
    + destruct others as [| o others]; [exact I |].
      apply Hg. discriminate.
    + intros _. unfold within_gap.
      assert (Hlast : last (first :: others) first = last others first)
        by now destruct others.
      rewrite Hlast. exact Hgap.
Qed.

Lemma scan_groups_strong rest : forall merged first others,
  group_within max_chars max_gap (first, others) ->
  exists groups g,
    fold_left step rest (merged, constituents_segment (first, others))
    = (merged ++ map constituents_segment groups, constituents_segment g)
    /\ flatten (groups ++ [g]) = (first :: others) ++ rest
    /\ Forall (group_within max_chars max_gap) (groups ++ [g])
    /\ neighbours flushed (groups ++ [g])
    /\ fst (hd g (groups ++ [g])) = first.
Proof.
  induction rest as [| seg rest IH]; intros merged first others Hg.
  - exists [], (first, others). cbn. rewrite !app_nil_r.
    repeat split; auto.
  - cbn [fold_left].
    destruct (should_merge max_chars max_gap
                (constituents_segment (first, others)) seg) eqn:E.
    + unfold step at 2. rewrite merge_step_merge by exact E.
      destruct (IH merged first (others ++ [seg])
                  (group_within_merge _ _ _ Hg E))
        as (groups & g & H1 & H2 & H3 & H4 & H5).
      exists groups, g. split; [exact H1 |]. split; [| auto].
      rewrite H2. cbn [app]. now rewrite <- app_assoc.
    + unfold step at 2. rewrite merge_step_flush by exact E.
      assert (Hseg : group_within max_chars max_gap (seg, [])).
      { intros Hne. now cbn in Hne. }
      destruct (IH (merged ++ [constituents_segment (first, others)]) seg []
                  Hseg)
        as (groups & g & H1 & H2 & H3 & H4 & H5).
      exists ((first, others) :: groups), g. split; [| split; [| split; [| split]]].
      * rewrite H1. cbn [map]. now rewrite <- app_assoc.
      * unfold flatten in *. cbn [app map concat fst snd].
        rewrite H2. reflexivity.
      * cbn [app]. constructor; assumption.
      * cbn [app]. apply (neighbours_cons_hd _ _ g).
        -- now destruct groups.
        -- unfold flushed. rewrite H5. exact E.
        -- exact H4.
      * reflexivity.
Qed.

Lemma merge_captions_groups_strong first rest :
  exists groups,
    flatten groups = first :: rest
    /\ merge_captions max_chars max_gap (first :: rest)
       = map constituents_segment groups
    /\ Forall (group_within max_chars max_gap) groups
    /\ neighbours flushed groups.
Proof.
  assert (Hseed : group_within max_chars max_gap (first, [])).
  { intros Hne. now cbn in Hne. }
  destruct (scan_groups_strong rest [] first [] Hseed)
    as (groups & g & H1 & H2 & H3 & H4 & _).
  exists (groups ++ [g]). split; [exact H2 |]. split; [| auto].
  unfold merge_captions.
  change (seed first) with (constituents_segment (first, [])).
  fold step. rewrite H1. now rewrite map_app.
Qed.

End MergerGroups.


Lemma strip_fixed (s : str) :
  (forall c r, s = c :: r -> isspace c = false) ->
  (forall a c, s = a ++ [c] -> isspace c = false) ->
  strip s = s.
Proof.
  intros Hhead Hlast. unfold strip.
  assert (Hl : lstrip s = s).
  { destruct s as [| c r]; [reflexivity |]. cbn.
    now rewrite (Hhead c r eq_refl). }
  rewrite Hl. unfold rstrip.
  destruct (rev s) as [| c r] eqn:E.
  - apply (f_equal (@rev char)) in E. now rewrite rev_involutive in E.
  - assert (Hs : s = rev r ++ [c]).
    { rewrite <- (rev_involutive s), E. reflexivity. }
    cbn [lstrip]. rewrite (Hlast (rev r) c Hs). rewrite <- E.
    apply rev_involutive.
Qed.

Lemma strip_strip (s : str) : strip (strip s) = strip s.
Proof.
  apply strip_fixed.
  - intros c r H. now apply strip_head in H.
  - intros a c H. now apply strip_last in H.
Qed.

Lemma join_head (sep x : str) (l : list str) :
  exists r, join sep (x :: l) = x ++ r.
Proof.
  destruct l as [| y l].
  - exists []. cbn. now rewrite app_nil_r.
  - now exists (sep ++ join sep (y :: l)).
Qed.

Lemma join_last (sep d : str) (l : list str) :
  l <> [] -> exists p, join sep l = p ++ last l d.
Proof.
  induction l as [| x l IH]; [congruence |]. intros _.
  destruct l as [| y l].
  - now exists [].
  - destruct (IH ltac:(discriminate)) as [p Hp].
    exists (x ++ sep ++ p).
    change (join sep (x :: y :: l)) with (x ++ sep ++ join sep (y :: l)).
    rewrite Hp. now rewrite <- !app_assoc.
Qed.

(** A join of stripped non-empty texts is left as it is by [strip]. *)
Lemma strip_join_stripped (l : list str) :
  Forall (fun x => strip x = x /\ x <> []) l ->
  strip (join [space] l) = join [space] l.
Proof.
  intros Hall. destruct l as [| x l]; [reflexivity |].
  apply strip_fixed.
  - intros c r H. destruct (join_head [space] x l) as [t Ht].
    rewrite Ht in H. inversion Hall as [| ? ? [Hx Hne] _]; subst.
    destruct x as [| c' x]; [congruence |]. injection H as -> _.
    now apply (strip_head _ _ _ Hx).
  - intros a c H.
    destruct (join_last [space] [] (x :: l) ltac:(discriminate)) as [p Hp].
    rewrite Hp in H.
    assert (Hin : In (last (x :: l) []) (x :: l)).
    { destruct (exists_last (l := x :: l) ltac:(discriminate)) as (l' & y & E).
      rewrite E, last_last. apply in_elt. }
    rewrite Forall_forall in Hall. destruct (Hall _ Hin) as [Hy Hne].
    destruct (exists_last Hne) as (y' & c' & E). rewrite E in H, Hy.
    rewrite app_assoc in H. apply app_inj_tail in H. destruct H as [_ <-].
    now apply (strip_last _ _ _ Hy).
Qed.

Lemma constituents_text_fixed (g : segment * list segment) :
  Forall nonblank (fst g :: snd g) ->
  strip (text (constituents_segment g)) = text (constituents_segment g).
Proof.
  destruct g as [first others]. intros H. cbn [constituents_segment text].
  apply strip_join_stripped. apply Forall_map.
  eapply Forall_impl; [| exact H]. intros s Hs. split.
  - apply strip_strip.
  - exact Hs.
Qed.

Lemma seed_constituents (g : segment * list segment) :
  Forall nonblank (fst g :: snd g) ->
  seed (constituents_segment g) = constituents_segment g.
Proof.
  intros H. unfold seed. rewrite (constituents_text_fixed g H).
  apply segment_eta.
Qed.

Lemma flushed_stays_flushed max_chars max_gap (g g' : segment * list segment) :
  Forall nonblank (fst g :: snd g) ->
  Forall nonblank (fst g' :: snd g') ->
  should_merge max_chars max_gap (constituents_segment g) (fst g') = false ->
  ~ merge_conditions max_chars max_gap (seed (constituents_segment g))
      (constituents_segment g').
Proof.
  intros Hg Hg' Hno Hm. rewrite (seed_constituents g Hg) in Hm.
  apply not_true_iff_false in Hno. apply Hno. apply should_merge_spec.
  destruct Hm as (Hterm & Hgap & Hlen).
  split; [exact Hterm |]. split.
  - destruct g' as [f' o']. exact Hgap.
  - rewrite (constituents_text_fixed g' Hg') in Hlen.
    destruct g' as [f' o']. cbn [fst].
    cbn [constituents_segment text] in Hlen. cbn [map] in Hlen.
    destruct (join_head [space] (strip (text f'))
                (map (fun s => strip (text s)) o')) as [r Hr].
    rewrite Hr in Hlen. rewrite !length_app in *. lia.
Qed.

Lemma flushed_neighbours max_chars max_gap
  (groups : list (segment * list segment)) :
  Forall (fun g => Forall nonblank (fst g :: snd g)) groups ->
  neighbours
    (fun g g' => should_merge max_chars max_gap (constituents_segment g)
                   (fst g') = false) groups ->
  neighbours (fun a b => ~ merge_conditions max_chars max_gap (seed a) b)
    (map constituents_segment groups).
Proof.
  induction groups as [| g [| g' rest] IH]; intros Hall Hn; try exact I.
  destruct Hn as [Hgg' Hn].
  inversion Hall as [| ? ? Hg Hall']; subst.
  inversion Hall' as [| ? ? Hg' _]; subst.
  split.
  - now apply flushed_stays_flushed.
  - now apply IH.
Qed.

Lemma flatten_members (groups : list (segment * list segment))
  (P : segment -> Prop) :
  Forall P (flatten groups) ->
  Forall (fun g => Forall P (fst g :: snd g)) groups.
Proof.
  unfold flatten. induction groups as [| g groups IH]; intros H.
  - constructor.
  - cbn [map concat] in H. apply Forall_app in H. destruct H as [Hg Hrest].
    constructor; [exact Hg | now apply IH].
Qed.

(** X7: merging is idempotent on segments none of whose texts is blank:
    merging the output again, with the same thresholds, changes nothing. *)
Theorem merge_idempotent :
  forall (max_chars : Z) (max_gap : Q) (segments : list segment),
    Forall nonblank segments ->
    merge_captions max_chars max_gap
      (merge_captions max_chars max_gap segments)
    = merge_captions max_chars max_gap segments.
Proof.
  intros max_chars max_gap [| first rest] Hnb; [reflexivity |].
  destruct (merge_captions_groups_strong max_chars max_gap first rest)
    as (groups & Hflat & Hout & _ & Hflushed).
  rewrite <- Hflat in Hnb. apply flatten_members in Hnb.
  rewrite Hout. rewrite merge_captions_unmergeable.
  - rewrite map_map. apply map_ext_in. intros g Hg.
    rewrite Forall_forall in Hnb. now apply seed_constituents, Hnb.
  - now apply flushed_neighbours.
Qed.

Lemma merge_idempotent_witness :
  merge_captions 140 1 (merge_captions 140 1 [hello; world])
  = merge_captions 140 1 [hello; world].
Proof.
  apply merge_idempotent.
  repeat constructor; unfold nonblank; vm_compute; discriminate.
Defined.

(** ** Writing a document and reading it back *)

Lemma to_millisecond_close (t : Q) :
  (Qabs (to_millisecond t - t) <= 1 # 1000)%Q.
Proof.
  unfold to_millisecond.
  destruct (py_round_near ((t - inject_Z (Qfloor t)) * 1000)%Q) as [Hlo Hhi].
  apply Qabs_Qle_condition.
  unfold Qdiv. change (/ 1000)%Q with (1 # 1000)%Q. split; lra.
Qed.

Lemma to_millisecond_exact (t : Q) (k : Z) :
  (t == k # 1000)%Q -> (to_millisecond t == t)%Q.
Proof.
  intros Hk. unfold to_millisecond.
  set (T := Qfloor t).
  assert (Hy : ((t - inject_Z T) * 1000 == inject_Z (k - T * 1000))%Q).
  { rewrite inject_Z_minus, inject_Z_mult, Hk.
    rewrite (Qmake_Qdiv k 1000). change (inject_Z 1000) with 1000%Q.
    change (inject_Z (Z.pos 1000)) with 1000%Q. field. }
  rewrite (py_round_Z _ _ Hy).
  rewrite Hk, inject_Z_minus, inject_Z_mult, (Qmake_Qdiv k 1000).
  change (inject_Z 1000) with 1000%Q.
  change (inject_Z (Z.pos 1000)) with 1000%Q. field.
Qed.

Section RoundTrip.

Variable decimal : char -> option N.

Hypothesis decimal_ascii :
  forall c, is_digit c -> decimal c = Some (c - 48)%N.

Lemma parse_format_nonneg (t : Q) :
  (0 <= t)%Q ->
  parse_srt_timestamp decimal (format_srt_timestamp t)
  = Returned (to_millisecond t).
Proof.
  intros Ht. destruct (format_fields comma t Ht) as (Hfmt & HT & Hms).
  set (T := Qfloor t) in *.
  assert (Hh : (0 <= T / 3600)%Z) by (apply Z.div_pos; lia).
  assert (Hm : (0 <= T mod 3600 / 60)%Z).
  { apply Z.div_pos; [| lia]. apply Z.mod_pos_bound. lia. }
  assert (Hs : (0 <= T mod 60)%Z) by (apply Z.mod_pos_bound; lia).
  unfold format_srt_timestamp. rewrite Hfmt.
  rewrite (parse_formatted_fields decimal decimal_ascii _ _ _ _ Hh Hm Hs Hms).
  now rewrite hms_recompose.
Qed.

End RoundTrip.

Lemma format_nonneg_chars (sep : char) (t : Q) :
  (0 <= t)%Q -> nonspace sep = true ->
  format_timestamp sep t <> []
  /\ Forall (fun c => nonspace c = true) (format_timestamp sep t).
Proof.
  intros Ht Hsep. destruct (format_fields sep t Ht) as (Hfmt & HT & Hms).
  rewrite Hfmt. clear Hfmt.
  assert (Hd : forall w z, (0 <= z)%Z ->
            Forall (fun c => nonspace c = true) (format_d w z)).
  { intros w z Hz. destruct (format_d_nonneg w z Hz) as (_ & Hall & _).
    eapply Forall_impl; [| exact Hall]. intros c Hc. unfold nonspace.
    now rewrite digit_not_space. }
  split.
  - destruct (format_d_nonneg 2 (Qfloor t / 3600)) as (Hne & _).
    + apply Z.div_pos; lia.
    + intros H. apply app_eq_nil in H. tauto.
  - repeat (first [apply Forall_app; split | apply Forall_cons]);
      try reflexivity; try exact Hsep; apply Hd; try assumption.
    + apply Z.div_pos; lia.
    + apply Z.div_pos; [| lia]. apply Z.mod_pos_bound. lia.
    + apply Z.mod_pos_bound. lia.
Qed.

Lemma nonspace_not_newline (c : char) : nonspace c = true -> c <> newline.
Proof. intros H ->. discriminate. Qed.

Lemma no_newline_nonspace (s : str) :
  Forall (fun c => nonspace c = true) s -> ~ In newline s.
Proof.
  intros H Hin. rewrite Forall_forall in H.
  now apply (nonspace_not_newline _ (H _ Hin)).
Qed.

Lemma str_of_int_digits (i : Z) :
  (0 <= i)%Z ->
  str_of_int i <> [] /\ Forall (fun c => nonspace c = true) (str_of_int i).
Proof.
  intros Hi. destruct (format_d_nonneg 0 i Hi) as (Hne & Hall & _).
  split; [exact Hne |]. eapply Forall_impl; [| exact Hall].
  intros c Hc. unfold nonspace. now rewrite digit_not_space.
Qed.

(** The timing line of a written block and what the pattern finds in it. *)
Lemma timing_line_written (s e : Q) :
  (0 <= s)%Q -> (0 <= e)%Q ->
  ~ In newline (format_srt_timestamp s ++ lit " --> " ++ format_srt_timestamp e)
  /\ match_timing
       (format_srt_timestamp s ++ lit " --> " ++ format_srt_timestamp e)
     = Some (format_srt_timestamp s, format_srt_timestamp e).
Proof.
  intros Hs He.
  destruct (format_nonneg_chars comma s Hs eq_refl) as [Hsne Hsall].
  destruct (format_nonneg_chars comma e He eq_refl) as [Hene Heall].
  fold (format_srt_timestamp s) in Hsne, Hsall.
  fold (format_srt_timestamp e) in Hene, Heall.
  split.
  - repeat (rewrite not_in_app || rewrite not_in_cons).
    repeat split; try discriminate; try (now apply no_newline_nonspace).
    cbn. intuition discriminate.
  - apply match_timing_shape. exists [space], [space], [].
    split; [now rewrite app_nil_r |].
    repeat split; auto; discriminate.
Qed.

Section BlockRoundTrip.

Variable decimal : char -> option N.

Hypothesis decimal_ascii :
  forall c, is_digit c -> decimal c = Some (c - 48)%N.

Lemma srt_block_stripped (i : Z) (seg : segment) :
  (0 <= i)%Z -> writable seg -> strip (srt_block i seg) = srt_block i seg.
Proof.
  intros Hi (_ & _ & _ & _ & (a & c & Htxt & Hc)).
  destruct (str_of_int_digits i Hi) as [Hne Hall].
  apply strip_fixed.
  - intros c' r H. unfold srt_block in H.
    destruct (str_of_int i) as [| d ds]; [congruence |].
    injection H as <- _. inversion Hall as [| ? ? Hd _]; subst.
    unfold nonspace in Hd. now apply negb_true_iff in Hd.
  - intros a' c' H. unfold srt_block in H. rewrite Htxt in H.
    rewrite !app_comm_cons, !app_assoc in H.
    apply app_inj_tail in H. now destruct H as [_ <-].
Qed.

Lemma srt_block_lines (i : Z) (seg : segment) :
  (0 <= i)%Z -> writable seg ->
  block_lines (srt_block i seg)
  = str_of_int i
    :: (format_srt_timestamp (start seg) ++ lit " --> "
        ++ format_srt_timestamp (end_ seg))
    :: split newline (text seg).
Proof.
  intros Hi Hw. unfold block_lines. rewrite srt_block_stripped by assumption.
  destruct Hw as (Hs & He & _).
  destruct (str_of_int_digits i Hi) as [_ Hall].
  destruct (timing_line_written _ _ Hs He) as [Hnl _].
  unfold srt_block.
  rewrite split_app_sep by now apply no_newline_nonspace.
  now rewrite split_app_sep by exact Hnl.
Qed.

Lemma parse_block_written (i : Z) (seg : segment) :
  (0 <= i)%Z -> writable seg ->
  parse_block decimal (srt_block i seg) = Returned (Some (read_back seg)).
Proof.
  intros Hi Hw. pose proof (srt_block_lines i seg Hi Hw) as Hlines.
  destruct Hw as (Hs & He & _).
  destruct (timing_line_written _ _ Hs He) as [_ Hmatch].
  rewrite (parse_block_timed decimal (srt_block i seg)
             (format_srt_timestamp (start seg))
             (format_srt_timestamp (end_ seg))).
  - rewrite !(parse_format_nonneg decimal decimal_ascii) by assumption.
    cbn [bind]. rewrite Hlines. cbn [skipn]. now rewrite join_split.
  - rewrite Hlines. cbn [length].
    pose proof (split_nonempty newline (text seg)) as Hne.
    destruct (split newline (text seg)); [congruence | cbn; lia].
  - unfold timing_line. rewrite Hlines. exact Hmatch.
Qed.

Lemma parse_blocks_written (segments : list segment) : forall i acc,
  (0 <= i)%Z -> Forall writable segments ->
  parse_blocks decimal (srt_blocks i segments) acc
  = Returned (acc ++ map read_back segments).
Proof.
  induction segments as [| seg rest IH]; intros i acc Hi Hall.
  - cbn. now rewrite app_nil_r.
  - inversion Hall as [| ? ? Hw Hrest]; subst. cbn [srt_blocks parse_blocks].
    rewrite (parse_block_written i seg Hi Hw). cbn [bind].
    rewrite IH by (auto; lia). cbn [map]. now rewrite <- app_assoc.
Qed.

End BlockRoundTrip.

Lemma write_srt_from_blocks (segments : list segment) : forall i,
  write_srt_from i segments
  = concat (map (fun b => b ++ [newline; newline]) (srt_blocks i segments)).
Proof.
  induction segments as [| seg rest IH]; intros i; [reflexivity |].
  cbn [write_srt_from srt_blocks map concat]. rewrite IH. unfold srt_block.
  repeat (rewrite <- app_assoc || rewrite <- app_comm_cons). reflexivity.
Qed.

Lemma concat_blocks_join (blocks : list str) :
  blocks <> [] ->
  concat (map (fun b => b ++ [newline; newline]) blocks)
  = join [newline; newline] blocks ++ [newline; newline].
Proof.
  induction blocks as [| b blocks IH]; [congruence |]. intros _.
  destruct blocks as [| b' blocks].
  - cbn. now rewrite app_nil_r.
  - cbn [map concat]. cbn [map concat] in IH. rewrite IH by discriminate.
    change (join [newline; newline] (b :: b' :: blocks))
      with (b ++ [newline; newline] ++ join [newline; newline] (b' :: blocks)).
    now rewrite <- !app_assoc.
Qed.

Lemma single_newlines_plain (x r : str) :
  ~ In newline x -> single_newlines r -> single_newlines (x ++ r).
Proof.
  induction x as [| c x IH]; intros Hx Hr; [exact Hr |].
  cbn [app single_newlines]. split.
  - intros ->. exfalso. apply Hx. now left.
  - apply IH; [| exact Hr]. intros H. apply Hx. now right.
Qed.

Lemma single_newlines_break (c : char) (r : str) :
  c <> newline -> single_newlines (c :: r) -> single_newlines (newline :: c :: r).
Proof. intros Hc Hr. split; [| exact Hr]. intros _. now exists c, r. Qed.

Lemma tight_no_leading_newline (s : str) :
  tight s -> exists c r, s = c :: r /\ c <> newline.
Proof.
  intros [(c & r & -> & Hc) _]. exists c, r. split; [reflexivity |].
  now intros ->.
Qed.

Lemma srt_block_tight (i : Z) (seg : segment) :
  (0 <= i)%Z -> writable seg -> tight (srt_block i seg).
Proof.
  intros Hi (_ & _ & _ & _ & (a & c & Htxt & Hc)).
  destruct (str_of_int_digits i Hi) as [Hne Hall]. unfold srt_block. split.
  - destruct (str_of_int i) as [| d ds]; [congruence |].
    inversion Hall as [| ? ? Hd _]; subst.
    exists d. eexists. split; [reflexivity |].
    unfold nonspace in Hd. now apply negb_true_iff in Hd.
  - rewrite Htxt. eexists. exists c. split; [| exact Hc].
    now rewrite !app_comm_cons, !app_assoc.
Qed.

Lemma srt_block_single_newlines (i : Z) (seg : segment) :
  (0 <= i)%Z -> writable seg -> single_newlines (srt_block i seg).
Proof.
  intros Hi (Hs & He & Hsn & (c & r & Htxt & Hc) & _).
  destruct (str_of_int_digits i Hi) as [_ Hall].
  destruct (timing_line_written _ _ Hs He) as [Hnl _].
  destruct (format_nonneg_chars comma (start seg) Hs eq_refl) as [Hne Hch].
  fold (format_srt_timestamp (start seg)) in Hne, Hch.
  unfold srt_block.
  apply single_newlines_plain; [now apply no_newline_nonspace |].
  destruct (format_srt_timestamp (start seg)) as [| d ds] eqn:E;
    [congruence |].
  cbn [app]. apply single_newlines_break.
  - inversion Hch; subst. now apply nonspace_not_newline.
  - change (d :: ds ++ lit " --> " ++ format_srt_timestamp (end_ seg))
      with ((d :: ds) ++ lit " --> " ++ format_srt_timestamp (end_ seg)) in Hnl.
    change (d :: (ds ++ lit " --> " ++ format_srt_timestamp (end_ seg))
              ++ newline :: text seg)
      with (((d :: ds) ++ lit " --> " ++ format_srt_timestamp (end_ seg))
              ++ newline :: text seg).
    apply single_newlines_plain; [exact Hnl |].
    rewrite Htxt in *. now apply single_newlines_break.
Qed.

Lemma re_split_blank_resume (s : str) :
  (forall r, s <> newline :: r) ->
  re_split_blank true s = re_split_blank false s.
Proof.
  destruct s as [| c r]; [reflexivity |]. intros H. cbn.
  destruct (N.eqb_spec c newline) as [-> | _]; [now specialize (H r) |].
  reflexivity.
Qed.

Lemma re_split_blank_block (b rest : str) :
  single_newlines b ->
  re_split_blank false (b ++ newline :: newline :: rest)
  = b :: re_split_blank true rest.
Proof.
  induction b as [| c b IH]; intros Hb.
  - cbn. reflexivity.
  - destruct Hb as [Hc Hb]. cbn [app].
    assert (Hstep : re_split_blank false (c :: b ++ newline :: newline :: rest)
                    = cons_first c
                        (re_split_blank false (b ++ newline :: newline :: rest))).
    { destruct (N.eqb_spec c newline) as [-> | Hne].
      - destruct (Hc eq_refl) as (c2 & r2 & -> & Hc2).
        cbn [app re_split_blank andb]. rewrite N.eqb_refl.
        apply N.eqb_neq in Hc2. now rewrite Hc2.
      - now apply re_split_blank_step. }
    rewrite Hstep, IH by exact Hb. reflexivity.
Qed.

Lemma re_split_blank_single (b : str) :
  single_newlines b -> re_split_blank false b = [b].
Proof.
  induction b as [| c b IH]; intros Hb; [reflexivity |].
  destruct Hb as [Hc Hb].
  assert (Hstep : re_split_blank false (c :: b)
                  = cons_first c (re_split_blank false b)).
  { destruct (N.eqb_spec c newline) as [-> | Hne].
    - destruct (Hc eq_refl) as (c2 & r2 & -> & Hc2).
      cbn [re_split_blank andb]. rewrite N.eqb_refl.
      apply N.eqb_neq in Hc2. now rewrite Hc2.
    - now apply re_split_blank_step. }
  rewrite Hstep, IH by exact Hb. reflexivity.
Qed.

Lemma re_split_blank_join (blocks : list str) :
  blocks <> [] ->
  Forall (fun b => single_newlines b /\ tight b) blocks ->
  re_split_blank false (join [newline; newline] blocks) = blocks.
Proof.
  induction blocks as [| b blocks IH]; [congruence |]. intros _ Hall.
  inversion Hall as [| ? ? [Hb Ht] Hrest]; subst.
  destruct blocks as [| b' blocks].
  - now apply re_split_blank_single.
  - change (join [newline; newline] (b :: b' :: blocks))
      with (b ++ newline :: newline :: join [newline; newline] (b' :: blocks)).
    rewrite re_split_blank_block by exact Hb.
    rewrite re_split_blank_resume.
    + now rewrite IH.
    + inversion Hrest as [| ? ? [_ Ht'] _]; subst.
      destruct (tight_no_leading_newline b' Ht') as (c & r & -> & Hc).
      destruct (join_head [newline; newline] (c :: r) blocks) as [t Hj].
      rewrite Hj. intros r' H. injection H as H _. contradiction.
Qed.

Lemma tight_join (blocks : list str) :
  blocks <> [] -> Forall tight blocks -> tight (join [newline; newline] blocks).
Proof.
  intros Hne Hall. split.
  - destruct blocks as [| b blocks]; [congruence |].
    inversion Hall as [| ? ? [(c & r & -> & Hc) _] _]; subst.
    destruct (join_head [newline; newline] (c :: r) blocks) as [t Hj].
    rewrite Hj. now exists c, (r ++ t).
  - destruct (join_last [newline; newline] [] blocks Hne) as [p Hp].
    assert (Hin : In (last blocks []) blocks).
    { destruct (exists_last Hne) as (l' & y & E).
      rewrite E, last_last. apply in_elt. }
    rewrite Forall_forall in Hall.
    destruct (Hall _ Hin) as [_ (a & c & Hl & Hc)].
    rewrite Hp, Hl. exists (p ++ a), c. split; [| exact Hc].
    now rewrite app_assoc.
Qed.

Lemma strip_blank_line_after (s : str) :
  tight s -> strip (s ++ [newline; newline]) = s.
Proof.
  intros [(c & r & Hs & Hc) (a & c' & Hl & Hc')]. unfold strip.
  assert (H1 : lstrip (s ++ [newline; newline]) = s ++ [newline; newline]).
  { rewrite Hs. cbn. now rewrite Hc. }
  rewrite H1. unfold rstrip. rewrite rev_app_distr.
  assert (H2 : lstrip (rev [newline; newline] ++ rev s) = lstrip (rev s))
    by reflexivity.
  rewrite H2, Hl, rev_unit. cbn [lstrip]. rewrite Hc'.
  cbn [rev]. now rewrite rev_involutive.
Qed.

Lemma srt_blocks_nonempty (i : Z) (segments : list segment) :
  segments <> [] -> srt_blocks i segments <> [].
Proof. destruct segments; [congruence | discriminate]. Qed.

Lemma srt_blocks_shape (segments : list segment) : forall i,
  (0 <= i)%Z -> Forall writable segments ->
  Forall (fun b => single_newlines b /\ tight b) (srt_blocks i segments).
Proof.
  induction segments as [| seg rest IH]; intros i Hi Hall; [constructor |].
  inversion Hall as [| ? ? Hw Hrest]; subst. cbn [srt_blocks]. constructor.
  - split; [now apply srt_block_single_newlines | now apply srt_block_tight].
  - apply IH; [lia | exact Hrest].
Qed.

Lemma blocks_of_written (i : Z) (segments : list segment) :
  (0 <= i)%Z -> segments <> [] -> Forall writable segments ->
  blocks_of (write_srt_from i segments) = srt_blocks i segments.
Proof.
  intros Hi Hne Hall. unfold blocks_of.
  pose proof (srt_blocks_shape segments i Hi Hall) as Hshape.
  pose proof (srt_blocks_nonempty i segments Hne) as Hbne.
  rewrite write_srt_from_blocks, concat_blocks_join by exact Hbne.
  rewrite strip_blank_line_after.
  - now apply re_split_blank_join.
  - apply tight_join; [exact Hbne |].
    eapply Forall_impl; [| exact Hshape]. now intros b [_ Hb].
Qed.

Lemma parse_write_srt (decimal : char -> option N) (segments : list segment) :
  (forall c, is_digit c -> decimal c = Some (c - 48)%N) ->
  Forall writable segments ->
  parse_srt_file decimal (write_srt segments)
  = Returned (map read_back segments).
Proof.
  intros Hdec Hall. destruct segments as [| seg rest]; [reflexivity |].
  unfold parse_srt_file, write_srt.
  rewrite blocks_of_written by (auto; try lia; discriminate).
  now rewrite (parse_blocks_written decimal Hdec) by (auto; lia).
Qed.



(** X9: the document written for a non-empty list of such segments splits
    back into one block per segment, in order, the block of the segment at
    position [k] beginning with the line [k + 1]. *)
Theorem srt_blocks_numbered :
  forall (segments : list segment) (k : nat),
    segments <> [] ->
    Forall writable segments ->
    nth_error (blocks_of (write_srt segments)) k
    = option_map (srt_block (1 + Z.of_nat k)) (nth_error segments k).
Proof.
  intros segments k Hne Hall. unfold write_srt.
  rewrite blocks_of_written by (auto; lia).
  clear Hne Hall. generalize 1%Z as i. revert k.
  induction segments as [| seg rest IH]; intros k i.
  - now destruct k.
  - destruct k as [| k]; cbn [srt_blocks nth_error option_map].
    + now rewrite Z.add_0_r.
    + rewrite IH. do 2 f_equal. lia.
Qed.

Lemma srt_blocks_numbered_witness :
  nth_error (blocks_of (write_srt [hello; world])) 1
  = Some (srt_block 2 world).
Proof.
  apply (srt_blocks_numbered [hello; world] 1); [discriminate |].
  repeat constructor; try (vm_compute; discriminate).
  - now exists (ch "H"), (lit "ello").
  - now exists (lit "Hell"), (ch "o").
  - now exists (ch "w"), (lit "orld.").
  - now exists (lit "world"), (ch ".").
Defined.

(** ** The script's entry point *)

Lemma transliterate_segments_returns (sanscript : option transliterator)
  (segments : list segment) :
  exists out, transliterate_segments sanscript segments = Returned out.
Proof.
  induction segments as [| seg rest [out Hout]]; cbn.
  - eauto.
  - destruct (transliterate_to_devanagari_returns sanscript (text seg))
      as [t ->].
    rewrite Hout. cbn. eauto.
Qed.

Lemma write_file_other (d : directory) (name other : string) (content : str) :
  other <> name -> write_file d name content other = d other.
Proof.
  intros H. unfold write_file. apply String.eqb_neq in H. now rewrite H.
Qed.

Lemma write_file_same (d : directory) (name : string) (content : str) :
  write_file d name content name = Some content.
Proof. unfold write_file. now rewrite String.eqb_refl. Qed.


(** X11: a run of [main] leaves every file of the directory whose name is
    not one of the six output names as it was; the transcript it reads is
    one of them. *)
Theorem main_touches_only_outputs :
  forall (decimal : char -> option N) (sanscript : option transliterator)
         (d d' : directory) (args : arguments) (name : string),
    snd (main decimal sanscript (Some d) args) = Some d' ->
    ~ In name output_names ->
    d' name = d name.
Proof.
  intros decimal sanscript d d' args name Hrun Hname.
  assert (Hn : forall n, In n output_names -> name <> n).
  { intros n Hn ->. contradiction. }
  assert (Hall : Forall (fun n => name <> n) output_names)
    by (apply Forall_forall; exact Hn).
  unfold output_names in Hall.
  repeat match goal with
         | H : Forall _ (_ :: _) |- _ => inversion H; clear H; subst
         end.
  unfold main in Hrun.
  destruct (d "transcript.srt"%string) as [content |];
    [| cbn in Hrun; congruence].
  destruct (parse_srt_file decimal content) as [segments | e];
    [| cbn in Hrun; congruence].
  destruct (transliterate_segments sanscript segments) as [dev | e];
    destruct (merge_captions_flag args), (devanagari_flag args);
    cbn [snd] in Hrun; injection Hrun as <-;
    now rewrite ?write_file_other by assumption.
Qed.

Lemma main_touches_only_outputs_witness :
  match snd (main ascii_decimal None
               (Some (write_file (fun _ => None) "transcript.srt"
                        sample_document))
               {| merge_captions_flag := true; devanagari_flag := true |})
  with
  | Some d' => d' "transcript.srt"%string = Some sample_document
  | None => False
  end.
Proof.
  destruct (snd (main ascii_decimal None
                   (Some (write_file (fun _ => None) "transcript.srt"
                            sample_document))
                   {| merge_captions_flag := true; devanagari_flag := true |}))
    as [d' |] eqn:E.
  - rewrite (main_touches_only_outputs _ _ _ _ _ "transcript.srt"%string E).
    + reflexivity.
    + cbn. intuition discriminate.
  - vm_compute in E. discriminate.
Defined.




(** ** Plain-text output *)

Lemma split_app (sep : char) (a b : str) :
  split sep (a ++ sep :: b) = split sep a ++ split sep b.
Proof.
  induction a as [| c a IH]; cbn [app split].
  - now rewrite N.eqb_refl.
  - rewrite IH. destruct (N.eqb_spec c sep) as [-> | Hc]; [reflexivity |].
    pose proof (split_nonempty sep a) as Hne.
    now destruct (split sep a).
Qed.

(** X13: the lines of the plain-text output are the lines of the texts of
    the segments, in order, followed by one empty line; when no text holds
    a newline, that is one line per segment. *)
Theorem write_txt_lines :
  forall segments : list segment,
    split newline (write_txt segments)
    = concat (map (fun seg => split newline (text seg)) segments) ++ [[]]
    /\ (Forall (fun seg => ~ In newline (text seg)) segments ->
        split newline (write_txt segments) = map text segments ++ [[]]).
Proof.
  intros segments.
  assert (H : split newline (write_txt segments)
              = concat (map (fun seg => split newline (text seg)) segments)
                  ++ [[]]).
  { induction segments as [| seg rest IH]; [reflexivity |].
    cbn [write_txt map concat]. rewrite <- app_assoc. cbn [app].
    now rewrite split_app, IH, app_assoc. }
  split; [exact H |]. intros Hall. rewrite H. f_equal. clear H.
  induction Hall as [| seg rest Hseg _ IH]; [reflexivity |].
  cbn [map concat]. rewrite split_no_occurrence by exact Hseg.
  now rewrite IH.
Qed.

Lemma write_txt_lines_witness :
  split newline (write_txt [hello; world]) = [lit "Hello"; lit "world."; []].
Proof.
  apply (proj2 (write_txt_lines [hello; world])).
  repeat constructor; cbn; intuition discriminate.
Defined.

(** ** The shape of a formatted time *)

Lemma digits_aux_length (fuel : nat) : forall (n : N) (acc : str) (k : nat),
  (0 < k)%nat -> (n < 10 ^ N.of_nat k)%N ->
  (length (digits_aux fuel n acc) <= k + length acc)%nat.
Proof.
  induction fuel as [| fuel IH]; intros n acc k Hk Hn; [cbn; lia |].
  cbn [digits_aux]. destruct (N.ltb_spec n 10) as [Hlt | Hge].
  - cbn [length]. lia.
  - destruct k as [| [| k]]; [lia | cbn in Hn; lia |].
    assert (Hn' : (n / 10 < 10 ^ N.of_nat (S k))%N).
    { rewrite (Nat2N.inj_succ (S k)), N.pow_succ_r' in Hn.
      apply N.Div0.div_lt_upper_bound. exact Hn. }
    specialize (IH (n / 10)%N ((zero + n mod 10)%N :: acc) (S k)
                  ltac:(lia) Hn').
    cbn [length] in IH. lia.
Qed.

Lemma format_d_length (width : nat) (z : Z) :
  (0 < width)%nat -> (0 <= z < 10 ^ Z.of_nat width)%Z ->
  length (format_d width z) = width.
Proof.
  intros Hw [Hz Hlt]. unfold format_d.
  destruct (Z.ltb_spec z 0) as [Hneg | _]; [lia |].
  rewrite length_app, repeat_length.
  assert (Hlen : (length (digits (Z.abs_N z)) <= width)%nat).
  { unfold digits.
    pose proof (digits_aux_length (S (N.to_nat (N.log2 (Z.abs_N z))))
                  (Z.abs_N z) [] width Hw) as H.
    cbn [length] in H. rewrite Nat.add_0_r in H. apply H.
    apply N2Z.inj_lt. rewrite N2Z.inj_abs_N, N2Z.inj_pow, nat_N_Z.
    change (Z.of_N 10) with 10%Z. lia. }
  lia.
Qed.

Lemma format_d_min_length (width : nat) (z : Z) :
  (width <= length (format_d width z))%nat.
Proof.
  unfold format_d. destruct (z <? 0)%Z; cbn [length];
    rewrite length_app, repeat_length; lia.
Qed.

Lemma py_round_below (y : Q) (z : Z) :
  (y < inject_Z z - (1 # 2))%Q -> (py_round y < z)%Z.
Proof.
  intros Hy. destruct (py_round_near y) as [Hlo _].
  rewrite Zlt_Qlt. lra.
Qed.

Lemma py_round_carry (y : Q) :
  (9995 # 10 <= y)%Q -> (y < 1000)%Q -> py_round y = 1000%Z.
Proof.
  intros Hlo Hhi.
  assert (Hf : Qfloor y = 999%Z).
  { apply Qfloor_unique.
    - change (999 <= y)%Q. lra.
    - change (y < 1000)%Q. lra. }
  unfold py_round. rewrite Hf.
  destruct (y - inject_Z 999 ?= 1 # 2)%Q eqn:E; try reflexivity.
  apply Qlt_alt in E. change (inject_Z 999) with 999%Q in E. lra.
Qed.



(** * Video metadata *)

(** ** Extracting the video id *)

Lemma take_id_spec (s id : str) :
  take_id s = Some id <-> valid_id id /\ exists rest, s = id ++ rest.
Proof.
  unfold take_id, valid_id. split.
  - destruct ((length (firstn 11 s) =? 11)%nat
              && forallb is_id_char (firstn 11 s)) eqn:E; [| discriminate].
    intros [= <-]. apply andb_true_iff in E. destruct E as [Hlen Hall].
    apply Nat.eqb_eq in Hlen. rewrite forallb_forall in Hall.
    repeat split; [exact Hlen | now apply Forall_forall |].
    exists (skipn 11 s). exact (eq_sym (firstn_skipn 11 s)).
  - intros ((Hlen & Hall) & rest & ->).
    assert (Hf : firstn 11 (id ++ rest) = id).
    { rewrite <- Hlen, firstn_app, Nat.sub_diag, firstn_all. cbn.
      apply app_nil_r. }
    rewrite Hf, Hlen. cbn [Nat.eqb andb].
    assert (Hb : forallb is_id_char id = true).
    { apply forallb_forall. now apply Forall_forall. }
    now rewrite Hb.
Qed.

Lemma match_here_some (alternatives : list str) (s id : str) :
  match_here alternatives s = Some id ->
  valid_id id
  /\ exists p rest, In p alternatives /\ s = p ++ id ++ rest.
Proof.
  induction alternatives as [| p ps IH]; cbn; [discriminate |].
  destruct (strip_prefix p s) as [r |] eqn:Ep.
  - destruct (take_id r) as [id' |] eqn:Et.
    + intros [= ->]. apply take_id_spec in Et. destruct Et as [Hv [rest ->]].
      apply strip_prefix_spec in Ep. split; [exact Hv |].
      exists p, rest. auto.
    + intros H. destruct (IH H) as (Hv & q & rest & Hq & Hs).
      split; [exact Hv |]. exists q, rest. auto.
  - intros H. destruct (IH H) as (Hv & q & rest & Hq & Hs).
    split; [exact Hv |]. exists q, rest. auto.
Qed.

Lemma match_here_none (alternatives : list str) (s : str) :
  match_here alternatives s = None
  <-> forall p id rest,
      In p alternatives -> s = p ++ id ++ rest -> ~ valid_id id.
Proof.
  induction alternatives as [| p ps IH]; cbn [match_here].
  - split; [intros _ p id rest [] | reflexivity].
  - split.
    + intros H q id rest [<- | Hq] Hs Hv.
      * assert (Ep : strip_prefix p s = Some (id ++ rest))
          by now apply strip_prefix_spec.
        assert (Et : take_id (id ++ rest) = Some id).
        { apply take_id_spec. split; [exact Hv | now exists rest]. }
        rewrite Ep, Et in H. discriminate.
      * assert (Hps : match_here ps s = None).
        { destruct (strip_prefix p s) as [r |]; [| exact H].
          destruct (take_id r); [discriminate | exact H]. }
        exact (proj1 IH Hps q id rest Hq Hs Hv).
    + intros H.
      assert (Hps : match_here ps s = None).
      { apply IH. intros q id rest Hq. apply H. now right. }
      destruct (strip_prefix p s) as [r |] eqn:Ep; [| exact Hps].
      destruct (take_id r) as [id |] eqn:Et; [| exact Hps].
      apply take_id_spec in Et. destruct Et as [Hv [rest ->]].
      apply strip_prefix_spec in Ep.
      now destruct (H p id rest (or_introl eq_refl) Ep).
Qed.

Lemma re_search_some (alternatives : list str) (s id : str) :
  re_search alternatives s = Some id ->
  valid_id id /\ exists p, In p alternatives /\ id_after p s id.
Proof.
  induction s as [| c s IH]; cbn [re_search].
  - destruct (match_here alternatives []) as [id' |] eqn:E; [| discriminate].
    intros [= ->]. apply match_here_some in E.
    destruct E as (Hv & p & rest & Hp & Hs).
    split; [exact Hv |]. exists p. split; [exact Hp |]. now exists [], rest.
  - destruct (match_here alternatives (c :: s)) as [id' |] eqn:E.
    + intros [= ->]. apply match_here_some in E.
      destruct E as (Hv & p & rest & Hp & Hs).
      split; [exact Hv |]. exists p. split; [exact Hp |]. now exists [], rest.
    + intros H. destruct (IH H) as (Hv & p & Hp & before & rest & ->).
      split; [exact Hv |]. exists p. split; [exact Hp |].
      now exists (c :: before), rest.
Qed.

Lemma re_search_none (alternatives : list str) (s : str) :
  re_search alternatives s = None
  <-> forall p id, In p alternatives -> id_after p s id -> ~ valid_id id.
Proof.
  induction s as [| c s IH]; cbn [re_search].
  - destruct (match_here alternatives []) as [id' |] eqn:E.
    + split; [discriminate |]. intros H. apply match_here_some in E.
      destruct E as (Hv & p & rest & Hp & Hs).
      destruct (H p id' Hp); [now exists [], rest | exact Hv].
    + split; [| reflexivity]. intros _ p id Hp (before & rest & Hs) Hv.
      destruct before as [| b before]; [| discriminate].
      exact (proj1 (match_here_none alternatives []) E p id rest Hp Hs Hv).
  - destruct (match_here alternatives (c :: s)) as [id' |] eqn:E.
    + split; [discriminate |]. intros H. apply match_here_some in E.
      destruct E as (Hv & p & rest & Hp & Hs).
      destruct (H p id' Hp); [now exists [], rest | exact Hv].
    + rewrite IH. split.
      * intros H p id Hp (before & rest & Hs) Hv.
        destruct before as [| b before].
        -- exact (proj1 (match_here_none alternatives (c :: s)) E
                    p id rest Hp Hs Hv).
        -- injection Hs as _ Hs.
           apply (H p id Hp); [now exists before, rest | exact Hv].
      * intros H p id Hp (before & rest & Hs) Hv.
        apply (H p id Hp); [| exact Hv].
        exists (c :: before), rest. now rewrite Hs.
Qed.

(** X15: the id that [extract_video_id] returns is 11 characters of the
    class [[a-zA-Z0-9_-]] standing in the URL right after one of the four
    markers, and the function returns [None] exactly when the URL holds no
    such 11 characters after any of them. *)
Theorem extract_video_id_sound_and_complete :
  forall url : str,
    (forall id,
        extract_video_id url = Some id ->
        valid_id id
        /\ exists marker, In marker id_markers /\ id_after marker url id)
    /\ (extract_video_id url = None
        <-> forall marker id,
            In marker id_markers -> id_after marker url id -> ~ valid_id id).
Proof.
  intros url. unfold extract_video_id, id_markers. split.
  - intros id.
    destruct (re_search _ url) as [id' |] eqn:E1.
    + intros [= ->]. apply re_search_some in E1.
      destruct E1 as (Hv & p & Hp & Ha).
      split; [exact Hv |]. exists p. split; [| exact Ha].
      cbn in Hp |- *. tauto.
    + intros E2. apply re_search_some in E2.
      destruct E2 as (Hv & p & Hp & Ha).
      split; [exact Hv |]. exists p. split; [| exact Ha].
      cbn in Hp |- *. tauto.
  - destruct (re_search _ url) as [id' |] eqn:E1.
    + split; [discriminate |]. intros H. apply re_search_some in E1.
      destruct E1 as (Hv & p & Hp & Ha).
      destruct (H p id'); [cbn in Hp |- *; tauto | exact Ha | exact Hv].
    + rewrite re_search_none in E1. rewrite re_search_none. split.
      * intros E2 marker id [<- | [<- | [<- | [<- | []]]]] Ha.
        -- apply (E1 (lit "youtube.com/watch?v=") id); [cbn; tauto | exact Ha].
        -- apply (E1 (lit "youtu.be/") id); [cbn; tauto | exact Ha].
        -- apply (E1 (lit "youtube.com/embed/") id); [cbn; tauto | exact Ha].
        -- apply (E2 (lit "v=") id); [cbn; tauto | exact Ha].
      * intros H p id Hp. apply H. cbn in Hp |- *. tauto.
Qed.

Lemma take_id_here (id rest : str) :
  valid_id id -> take_id (id ++ rest) = Some id.
Proof. intros H. apply take_id_spec. split; [exact H | now exists rest]. Qed.

(** X16: from a URL of one of the four documented forms, whatever follows
    the 11 characters of the id, [extract_video_id] returns that id. *)
Theorem extract_video_id_documented_forms :
  forall id rest : str,
    valid_id id ->
    extract_video_id (lit "https://www.youtube.com/watch?v=" ++ id ++ rest)
    = Some id
    /\ extract_video_id (lit "https://youtu.be/" ++ id ++ rest) = Some id
    /\ extract_video_id (lit "https://www.youtube.com/embed/" ++ id ++ rest)
       = Some id
    /\ extract_video_id (lit "https://m.youtube.com/watch?v=" ++ id ++ rest)
       = Some id.
Proof.
  intros id rest Hv. pose proof (take_id_here id rest Hv) as Ht.
  unfold extract_video_id.
  repeat split; cbn -[take_id]; now rewrite Ht.
Qed.

Lemma extract_video_id_documented_forms_witness :
  extract_video_id (lit "https://youtu.be/dQw4w9WgXcQ?t=42")
  = Some (lit "dQw4w9WgXcQ").
Proof.
  apply (extract_video_id_documented_forms (lit "dQw4w9WgXcQ") (lit "?t=42")).
  split; [reflexivity |]. repeat constructor.
Defined.

(** ** Sanitizing a title *)

Lemma is_joiner_cases (c : char) :
  is_joiner c = true <-> c = underscore \/ c = hyphen.
Proof. unfold is_joiner. now rewrite orb_true_iff, !N.eqb_eq. Qed.

Lemma alnum_not_joiner (c : char) : is_alnum c = true -> is_joiner c = false.
Proof.
  intros H. apply not_true_iff_false. intros Hj.
  apply is_joiner_cases in Hj. destruct Hj as [-> | ->]; discriminate.
Qed.

Lemma safe_cases (c : char) :
  is_safe c = true -> is_joiner c = false -> is_alnum c = true.
Proof. unfold is_safe. intros H Hj. rewrite Hj, orb_false_r in H. exact H. Qed.

Lemma collapse_joiners_loose (s : str) :
  Forall (fun c => is_safe c = true) s ->
  forall in_run,
    loosely_separated (collapse_joiners in_run s)
    /\ (in_run = true ->
        forall c r, collapse_joiners in_run s = c :: r -> is_alnum c = true).
Proof.
  induction 1 as [| c s Hc _ IH]; intros in_run.
  - split; [exact I | discriminate].
  - cbn [collapse_joiners]. destruct (is_joiner c) eqn:Ej.
    + destruct in_run.
      * apply IH.
      * destruct (IH true) as [IH1 IH2]. split; [| discriminate].
        split; [| exact IH1]. right. split; [reflexivity |].
        intros c2 r2 E. exact (IH2 eq_refl c2 r2 E).
    + pose proof (safe_cases c Hc Ej) as Ha. split.
      * split; [now left | apply IH].
      * intros _ c' r' [= <- _]. exact Ha.
Qed.

Lemma loosely_separated_chars (s : str) :
  loosely_separated s ->
  Forall (fun c => is_alnum c = true \/ c = underscore) s.
Proof.
  induction s as [| c s IH]; intros H; [constructor |].
  destruct H as [Hc Hs]. constructor; [tauto | now apply IH].
Qed.

Lemma lstrip_chars_loose (s : str) :
  loosely_separated s ->
  loosely_separated (lstrip_chars is_joiner s)
  /\ forall c r, lstrip_chars is_joiner s = c :: r -> is_alnum c = true.
Proof.
  induction s as [| c s IH]; intros H; [split; [exact I | discriminate] |].
  cbn [lstrip_chars]. destruct (is_joiner c) eqn:Ej.
  - apply IH. apply H.
  - split; [exact H |]. intros c' r' [= <- _].
    destruct H as [[Ha | [-> _]] _]; [exact Ha | discriminate].
Qed.

Lemma rstrip_chars_prefix (p : char -> bool) (s : str) :
  exists t, s = rstrip_chars p s ++ t.
Proof.
  induction s as [| c s [t IH]]; [now exists [] |]. cbn [rstrip_chars].
  destruct (rstrip_chars p s) as [| c' r'] eqn:E.
  - destruct (p c).
    + now exists (c :: s).
    + exists s. reflexivity.
  - exists t. rewrite IH at 1. reflexivity.
Qed.

Lemma rstrip_chars_length (p : char -> bool) (s : str) :
  (length (rstrip_chars p s) <= length s)%nat.
Proof.
  destruct (rstrip_chars_prefix p s) as [t H].
  rewrite H at 2. rewrite length_app. lia.
Qed.

Lemma rstrip_chars_head (p : char -> bool) (s : str) (c : char) (r : str) :
  rstrip_chars p s = c :: r -> exists r', s = c :: r'.
Proof.
  intros H. destruct (rstrip_chars_prefix p s) as [t Ht].
  rewrite H in Ht. now exists (r ++ t).
Qed.

Lemma rstrip_chars_separated (s : str) :
  loosely_separated s -> separated (rstrip_chars is_joiner s).
Proof.
  induction s as [| c s IH]; intros H; [exact I |].
  destruct H as [Hc Hs]. specialize (IH Hs). cbn [rstrip_chars].
  destruct (rstrip_chars is_joiner s) as [| c2 r2] eqn:E.
  - destruct (is_joiner c) eqn:Ej; [exact I |].
    split; [| exact I]. left.
    destruct Hc as [Ha | [-> _]]; [exact Ha | discriminate].
  - split; [| exact IH].
    destruct Hc as [Ha | [-> Hnext]]; [now left | right].
    split; [reflexivity |]. exists c2, r2. split; [reflexivity |].
    destruct (rstrip_chars_head _ _ _ _ E) as [r' ->].
    exact (Hnext c2 r' eq_refl).
Qed.

Lemma firstn_loose (n : nat) : forall s,
  loosely_separated s -> loosely_separated (firstn n s).
Proof.
  induction n as [| n IH]; intros s H; [exact I |].
  destruct s as [| c s]; [exact I |]. destruct H as [Hc Hs].
  cbn [firstn]. split; [| now apply IH].
  destruct Hc as [Ha | [-> Hnext]]; [now left | right].
  split; [reflexivity |]. intros c2 r2 E.
  destruct n as [| n]; [discriminate |].
  destruct s as [| c3 s]; [discriminate |].
  cbn [firstn] in E. injection E as <- _. exact (Hnext c3 s eq_refl).
Qed.

Lemma firstn_head {A} (n : nat) (s : list A) (c : A) (r : list A) :
  firstn n s = c :: r -> exists r', s = c :: r'.
Proof.
  destruct n as [| n]; [discriminate |].
  destruct s as [| c' s]; [discriminate |].
  cbn. intros [= -> _]. now exists s.
Qed.

Lemma slice_to_firstn (n : Z) (s : str) : exists k, slice_to n s = firstn k s.
Proof. unfold slice_to. destruct (0 <=? n)%Z; eauto. Qed.

Lemma safe_name_video : safe_name (lit "video").
Proof.
  split; [now exists (ch "v"), (lit "ideo") |].
  repeat split; now left.
Qed.

Section SanitizeFacts.

Variable lower : str -> str.

(** The title after the four rewriting steps and the trimming of its two
    ends. *)
Let trimmed (title : str) : str :=
  strip_chars is_joiner
    (collapse_joiners false
       (filter is_safe (replace_char space underscore (lower title)))).

Lemma trimmed_loose title :
  loosely_separated (lstrip_chars is_joiner
     (collapse_joiners false
        (filter is_safe (replace_char space underscore (lower title)))))
  /\ forall c r,
      lstrip_chars is_joiner
        (collapse_joiners false
           (filter is_safe (replace_char space underscore (lower title))))
      = c :: r -> is_alnum c = true.
Proof.
  apply lstrip_chars_loose. apply collapse_joiners_loose.
  apply Forall_forall. intros c Hc. now apply filter_In in Hc.
Qed.

Lemma trimmed_safe title :
  trimmed title = [] \/ safe_name (trimmed title).
Proof.
  unfold trimmed, strip_chars. destruct (trimmed_loose title) as [Hl Hh].
  destruct (rstrip_chars is_joiner _) as [| c r] eqn:E; [now left | right].
  split.
  - exists c, r. split; [reflexivity |].
    destruct (rstrip_chars_head _ _ _ _ E) as [r' Hr]. exact (Hh c r' Hr).
  - rewrite <- E. now apply rstrip_chars_separated.
Qed.

Lemma trimmed_loosely title : loosely_separated (trimmed title).
Proof.
  destruct (trimmed_safe title) as [-> | [_ H]]; [exact I |].
  clear -H. induction (trimmed title) as [| c s IH]; [exact I |].
  destruct H as [Hc Hs]. split; [| now apply IH].
  destruct Hc as [Ha | [-> (c2 & r2 & -> & Ha)]]; [now left | right].
  split; [reflexivity |]. now intros c3 r3 [= <- _].
Qed.

Lemma truncated_safe title (n : Z) :
  rstrip_chars is_joiner (slice_to n (trimmed title)) = []
  \/ safe_name (rstrip_chars is_joiner (slice_to n (trimmed title))).
Proof.
  destruct (slice_to_firstn n (trimmed title)) as [k ->].
  destruct (rstrip_chars is_joiner (firstn k (trimmed title)))
    as [| c r] eqn:E; [now left | right].
  split.
  - exists c, r. split; [reflexivity |].
    destruct (rstrip_chars_head _ _ _ _ E) as [r' Hr].
    destruct (firstn_head _ _ _ _ Hr) as [r'' Ht].
    destruct (trimmed_safe title) as [H0 | [(c0 & r0 & H0 & Ha) _]];
      rewrite H0 in Ht; [discriminate |].
    now injection Ht as <- _.
  - rewrite <- E. apply rstrip_chars_separated, firstn_loose.
    apply trimmed_loosely.
Qed.

Lemma sanitize_title_safe title max_length :
  safe_name (sanitize_title lower title max_length).
Proof.
  unfold sanitize_title. fold (trimmed title).
  destruct (max_length <? Z.of_nat (length (trimmed title)))%Z.
  - destruct (truncated_safe title max_length) as [-> | H].
    + exact safe_name_video.
    + destruct H as [(c & r & E & Ha) Hs]. rewrite E in *. cbn [nonempty].
      split; [now exists c, r | exact Hs].
  - destruct (trimmed_safe title) as [-> | H].
    + exact safe_name_video.
    + destruct H as [(c & r & E & Ha) Hs]. rewrite E in *. cbn [nonempty].
      split; [now exists c, r | exact Hs].
Qed.

Lemma sanitize_title_length title max_length :
  (0 <= max_length)%Z ->
  sanitize_title lower title max_length = lit "video"
  \/ (Z.of_nat (length (sanitize_title lower title max_length))
      <= max_length)%Z.
Proof.
  intros Hmax. unfold sanitize_title. fold (trimmed title).
  destruct (Z.ltb_spec max_length (Z.of_nat (length (trimmed title))))
    as [Hlong | Hshort].
  - destruct (rstrip_chars is_joiner (slice_to max_length (trimmed title)))
      as [| c r] eqn:E; [now left | right]. cbn [nonempty]. rewrite <- E.
    pose proof (rstrip_chars_length is_joiner
                  (slice_to max_length (trimmed title))) as H1.
    unfold slice_to in *. apply Z.leb_le in Hmax. rewrite Hmax in *.
    apply Z.leb_le in Hmax.
    pose proof (firstn_le_length (Z.to_nat max_length) (trimmed title)) as H2.
    lia.
  - destruct (trimmed title) as [| c r]; [now left | right]. exact Hshort.
Qed.

(** X17: whatever the title, the limit and the lower-casing, the sanitized
    title is a non-empty name made of words of lower-case ASCII letters
    and digits joined by single underscores: no other character, no
    hyphen, no underscore at either end and no two underscores in a
    row. *)
Theorem sanitize_title_is_safe_name :
  forall (title : str) (max_length : Z),
    safe_name (sanitize_title lower title max_length).
Proof.
  intros title max_length. unfold sanitize_title. fold (trimmed title).
  assert (Hcase : forall s, s = [] \/ safe_name s ->
            safe_name (if nonempty s then s else lit "video")).
  { intros s [-> | H]; [exact safe_name_video |].
    destruct H as [(c & r & -> & Ha) Hs]. cbn [nonempty].
    split; [now exists c, r | exact Hs]. }
  destruct (max_length <? Z.of_nat (length (trimmed title)))%Z; apply Hcase.
  - apply truncated_safe.
  - apply trimmed_safe.
Qed.

(** X18: with a limit that is not negative, the sanitized title is the
    fallback [video] or has at most [max_length] characters. *)
Theorem sanitize_title_within_limit :
  forall (title : str) (max_length : Z),
    (0 <= max_length)%Z ->
    sanitize_title lower title max_length = lit "video"
    \/ (Z.of_nat (length (sanitize_title lower title max_length))
        <= max_length)%Z.
Proof.
  intros title max_length Hmax. unfold sanitize_title. fold (trimmed title).
  destruct (Z.ltb_spec max_length (Z.of_nat (length (trimmed title))))
    as [Hlong | Hshort].
  - destruct (rstrip_chars is_joiner (slice_to max_length (trimmed title)))
      as [| c r] eqn:E; [now left | right]. cbn [nonempty]. rewrite <- E.
    pose proof (rstrip_chars_length is_joiner
                  (slice_to max_length (trimmed title))) as H1.
    unfold slice_to in H1 |- *. destruct (Z.leb_spec 0 max_length); [| lia].
    pose proof (firstn_le_length (Z.to_nat max_length) (trimmed title)) as H2.
    lia.
  - destruct (trimmed title) as [| c r]; [now left | right]. exact Hshort.
Qed.

End SanitizeFacts.

Lemma sanitize_title_within_limit_witness :
  sanitize_title ascii_lower (lit "Hello, World -- Part 2!") 11
  = lit "video"
  \/ (Z.of_nat (length (sanitize_title ascii_lower
                          (lit "Hello, World -- Part 2!") 11)) <= 11)%Z.
Proof. apply sanitize_title_within_limit. lia. Defined.

Example sanitize_title_example :
  sanitize_title ascii_lower (lit "Hello, World -- Part 2!") 80
  = lit "hello_world_part_2"
  /\ sanitize_title ascii_lower (lit "Hello, World -- Part 2!") 12
     = lit "hello_world"
  /\ sanitize_title ascii_lower (lit "!!!") 80 = lit "video".
Proof. repeat split; vm_compute; reflexivity. Qed.

Lemma separated_chars (s : str) :
  separated s -> Forall (fun c => is_alnum c = true \/ c = underscore) s.
Proof.
  induction s as [| c s IH]; intros H; [constructor |].
  destruct H as [Hc Hs]. constructor; [tauto | now apply IH].
Qed.

Lemma separated_safe (s : str) :
  separated s -> Forall (fun c => is_safe c = true) s.
Proof.
  intros H. eapply Forall_impl; [| exact (separated_chars s H)].
  intros c [Ha | ->]; [| reflexivity]. unfold is_safe. now rewrite Ha.
Qed.

Lemma replace_char_absent (old new : char) (s : str) :
  ~ In old s -> replace_char old new s = s.
Proof.
  unfold replace_char.
  induction s as [| c s IH]; intros H; [reflexivity |]. cbn [map].
  destruct (N.eqb_spec c old) as [-> | _].
  - exfalso. apply H. now left.
  - rewrite IH; [reflexivity |]. intros Hin. apply H. now right.
Qed.

Lemma filter_all {A} (p : A -> bool) (s : list A) :
  Forall (fun c => p c = true) s -> filter p s = s.
Proof.
  induction 1 as [| c s Hc _ IH]; [reflexivity |]. cbn. now rewrite Hc, IH.
Qed.

Lemma collapse_joiners_separated (s : str) :
  separated s -> collapse_joiners false s = s.
Proof.
  induction s as [| c s IH]; intros H; [reflexivity |].
  destruct H as [Hc Hs]. cbn [collapse_joiners].
  destruct Hc as [Ha | [-> (c2 & r2 & -> & Ha)]].
  - rewrite (alnum_not_joiner c Ha). now rewrite IH.
  - change (is_joiner underscore) with true. cbn iota.
    specialize (IH Hs). cbn [collapse_joiners] in IH |- *.
    rewrite (alnum_not_joiner c2 Ha) in IH |- *. now rewrite IH.
Qed.

Lemma rstrip_chars_separated_fixed (s : str) :
  separated s -> rstrip_chars is_joiner s = s.
Proof.
  induction s as [| c s IH]; intros H; [reflexivity |].
  destruct H as [Hc Hs]. cbn [rstrip_chars]. rewrite (IH Hs).
  destruct s as [| c2 s]; [| reflexivity].
  destruct Hc as [Ha | [_ (c2 & r2 & E & _)]]; [| discriminate].
  now rewrite (alnum_not_joiner c Ha).
Qed.

Lemma sanitize_title_fixed (lower : str -> str) (name : str) (max_length : Z) :
  safe_name name ->
  lower name = name ->
  (Z.of_nat (length name) <= max_length)%Z ->
  sanitize_title lower name max_length = name.
Proof.
  intros [(c & r & E & Ha) Hs] Hlow Hlen. unfold sanitize_title.
  rewrite Hlow.
  rewrite replace_char_absent.
  2:{ intros Hin. pose proof (separated_chars name Hs) as Hall.
      rewrite Forall_forall in Hall.
      destruct (Hall _ Hin) as [H | H]; discriminate. }
  rewrite filter_all by now apply separated_safe.
  rewrite collapse_joiners_separated by exact Hs.
  unfold strip_chars.
  assert (Hl : lstrip_chars is_joiner name = name).
  { rewrite E. cbn. now rewrite (alnum_not_joiner c Ha). }
  rewrite Hl, rstrip_chars_separated_fixed by exact Hs.
  apply Z.ltb_ge in Hlen. rewrite Hlen. now rewrite E.
Qed.

(** X19: sanitizing is idempotent for a limit of at least 5, the length of
    the fallback, when lower-casing leaves alone the strings made of
    lower-case ASCII letters, digits, underscores and hyphens. *)
Theorem sanitize_title_idempotent :
  forall (lower : str -> str) (title : str) (max_length : Z),
    (forall s, Forall (fun c => is_safe c = true) s -> lower s = s) ->
    (5 <= max_length)%Z ->
    sanitize_title lower (sanitize_title lower title max_length) max_length
    = sanitize_title lower title max_length.
Proof.
  intros lower title max_length Hlower Hmax.
  pose proof (sanitize_title_safe lower title max_length) as Hsafe.
  apply sanitize_title_fixed.
  - exact Hsafe.
  - apply Hlower, separated_safe, Hsafe.
  - destruct (sanitize_title_length lower title max_length ltac:(lia))
      as [-> | H]; [cbn; lia | exact H].
Qed.

Lemma ascii_lower_safe (s : str) :
  Forall (fun c => is_safe c = true) s -> ascii_lower s = s.
Proof.
  induction 1 as [| c s Hc _ IH]; [reflexivity |]. cbn [ascii_lower map].
  fold (ascii_lower s). rewrite IH.
  destruct (in_range "A" "Z" c) eqn:E; [| reflexivity].
  exfalso. unfold is_safe, is_alnum, is_joiner, in_range in *.
  repeat (apply orb_true_iff in Hc; destruct Hc as [Hc | Hc]);
    repeat match goal with
           | H : (_ && _)%bool = true |- _ =>
               apply andb_true_iff in H; destruct H
           | H : (_ <=? _)%N = true |- _ => apply N.leb_le in H; cbn in H
           | H : (_ =? _)%N = true |- _ => apply N.eqb_eq in H; cbn in H
           end; lia.
Qed.

Lemma sanitize_title_idempotent_witness :
  sanitize_title ascii_lower
    (sanitize_title ascii_lower (lit "Hello, World -- Part 2!") 12) 12
  = sanitize_title ascii_lower (lit "Hello, World -- Part 2!") 12.
Proof.
  apply sanitize_title_idempotent; [exact ascii_lower_safe | lia].
Defined.

(** * What the parser returns *)

Lemma single_newlines_app (x y : str) :
  single_newlines x -> single_newlines y -> single_newlines (x ++ y).
Proof.
  induction x as [| c x IH]; intros Hx Hy; [exact Hy |].
  destruct Hx as [Hc Hx]. cbn [app single_newlines]. split; [| now apply IH].
  intros E. destruct (Hc E) as (c2 & r2 & -> & Hc2).
  now exists c2, (r2 ++ y).
Qed.

Lemma single_newlines_no_newline (x : str) :
  ~ In newline x -> single_newlines x.
Proof.
  intros H. rewrite <- (app_nil_r x). now apply single_newlines_plain.
Qed.

Lemma single_newlines_join_lines (lines : list str) :
  Forall (fun l => l <> [] /\ ~ In newline l) lines ->
  single_newlines (join [newline] lines).
Proof.
  induction 1 as [| l lines [Hne Hnl] Hrest IH]; [exact I |].
  destruct lines as [| l2 lines].
  - now apply single_newlines_no_newline.
  - change (join [newline] (l :: l2 :: lines))
      with (l ++ newline :: join [newline] (l2 :: lines)).
    apply single_newlines_plain; [exact Hnl |].
    inversion Hrest as [| ? ? [Hne2 Hnl2] _]; subst.
    destruct (join_head [newline] l2 lines) as [t Hj].
    destruct l2 as [| c l2]; [congruence |].
    split; [| exact IH]. intros _. exists c, (l2 ++ t).
    split; [exact Hj |]. intros ->. apply Hnl2. now left.
Qed.

Lemma parsed_timestamp_whole (decimal : char -> option N) (ts : str) (t : Q) :
  parse_srt_timestamp decimal ts = Returned t -> whole_milliseconds t.
Proof.
  unfold parse_srt_timestamp.
  destruct (split comma ts) as [| tp [| msf [| ? ?]]]; try discriminate.
  destruct (split colon tp) as [| hf [| mf [| sf [| ? ?]]]]; try discriminate.
  destruct (py_int decimal hf) as [h |]; [| discriminate].
  destruct (py_int decimal mf) as [m |]; [| discriminate].
  destruct (py_int decimal sf) as [s |]; [| discriminate].
  destruct (py_int decimal msf) as [ms |]; [| discriminate].
  cbn [bind]. intros [= <-].
  generalize (h * 3600 + m * 60 + s)%Z. intros A.
  exists (A * 1000 + ms)%Z.
  rewrite (Qmake_Qdiv _ 1000), inject_Z_plus, inject_Z_mult.
  change (inject_Z 1000) with 1000%Q.
  change (inject_Z (Z.pos 1000)) with 1000%Q. field.
Qed.

Lemma block_text_writable (content block : str) :
  In block (blocks_of content) ->
  (3 <= length (block_lines block))%nat ->
  writable_text (join [newline] (skipn 2 (block_lines block))).
Proof.
  intros Hin Hlen.
  destruct (block_lines_nonempty content block Hin) as [E | Hne];
    [rewrite E in Hlen; cbn in Hlen; lia |].
  pose proof (split_no_sep newline (strip block)) as Hnl.
  fold (block_lines block) in Hnl.
  pose proof (join_split newline (strip block)) as Hjoin.
  fold (block_lines block) in Hjoin.
  destruct (block_lines block) as [| l0 [| l1 [| l2 rest]]];
    try (cbn in Hlen; lia).
  cbn [skipn].
  assert (Hlines : Forall (fun l => l <> [] /\ ~ In newline l) (l2 :: rest)).
  { inversion Hne as [| ? ? _ Hne1]; subst.
    inversion Hne1 as [| ? ? _ Hne2]; subst.
    inversion Hnl as [| ? ? _ Hnl1]; subst.
    inversion Hnl1 as [| ? ? _ Hnl2]; subst.
    clear -Hne2 Hnl2. induction Hne2 as [| l ls Hl _ IH].
    - constructor.
    - inversion Hnl2; subst. constructor; [tauto | now apply IH]. }
  split; [now apply single_newlines_join_lines |]. split.
  - inversion Hlines as [| ? ? [Hne2 Hnl2] _]; subst.
    destruct (join_head [newline] l2 rest) as [t Hj].
    destruct l2 as [| c l2]; [congruence |].
    exists c, (l2 ++ t). split; [exact Hj |].
    intros ->. apply Hnl2. now left.
  - assert (Htext : join [newline] (l2 :: rest) <> []).
    { inversion Hlines as [| ? ? [Hne2 _] _]; subst.
      destruct (join_head [newline] l2 rest) as [t Hj]. rewrite Hj.
      now destruct l2. }
    destruct (exists_last Htext) as (a & c & E). exists a, c.
    split; [exact E |].
    change (join [newline] (l0 :: l1 :: l2 :: rest))
      with (l0 ++ newline :: l1 ++ newline :: join [newline] (l2 :: rest))
      in Hjoin.
    rewrite E in Hjoin.
    apply (strip_last block (l0 ++ newline :: l1 ++ newline :: a) c).
    rewrite <- Hjoin.
    now rewrite <- !app_assoc, <- !app_comm_cons, <- !app_assoc.
Qed.

Lemma parse_block_parsed (decimal : char -> option N) (content block : str)
  (seg : segment) :
  In block (blocks_of content) ->
  parse_block decimal block = Returned (Some seg) ->
  parsed_segment seg.
Proof.
  intros Hin. unfold parse_block. fold (block_lines block).
  destruct (Nat.ltb_spec (length (block_lines block)) 3) as [| Hlen];
    [discriminate |].
  destruct (match_timing _) as [[a b] |]; [| discriminate].
  destruct (parse_srt_timestamp decimal a) as [st |] eqn:Ea; [| discriminate].
  destruct (parse_srt_timestamp decimal b) as [en |] eqn:Eb; [| discriminate].
  cbn [bind]. intros [= <-]. split; [| split]; cbn [text start end_].
  - now apply (block_text_writable content).
  - now apply (parsed_timestamp_whole decimal a).
  - now apply (parsed_timestamp_whole decimal b).
Qed.

Lemma parse_blocks_parsed (decimal : char -> option N) (content : str)
  (blocks : list str) : forall acc segments,
  (forall block, In block blocks -> In block (blocks_of content)) ->
  Forall parsed_segment acc ->
  parse_blocks decimal blocks acc = Returned segments ->
  Forall parsed_segment segments.
Proof.
  induction blocks as [| b rest IH]; intros acc segments Hsub Hacc;
    cbn [parse_blocks].
  - now intros [= <-].
  - destruct (parse_block decimal b) as [[seg |] | e] eqn:E; cbn [bind];
      [| | discriminate].
    + apply IH.
      * intros b' Hb'. apply Hsub. now right.
      * apply Forall_app. split; [exact Hacc |]. constructor; [| constructor].
        apply (parse_block_parsed decimal content b); [| exact E].
        apply Hsub. now left.
    + apply IH; [| exact Hacc]. intros b' Hb'. apply Hsub. now right.
Qed.

Lemma parse_srt_file_parsed (decimal : char -> option N) (content : str)
  (segments : list segment) :
  parse_srt_file decimal content = Returned segments ->
  Forall parsed_segment segments.
Proof.
  intros H.
  apply (parse_blocks_parsed decimal content (blocks_of content) [] segments);
    auto.
Qed.



Lemma read_back_same (seg : segment) :
  whole_milliseconds (start seg) -> whole_milliseconds (end_ seg) ->
  same_segment (read_back seg) seg.
Proof.
  intros [k1 H1] [k2 H2]. unfold same_segment. cbn [read_back text start end_].
  split; [reflexivity |].
  split; [exact (to_millisecond_exact _ k1 H1) |
          exact (to_millisecond_exact _ k2 H2)].
Qed.



(** * Merging, then writing *)

Lemma single_newlines_suffix (l s : str) :
  single_newlines (l ++ s) -> single_newlines s.
Proof.
  induction l as [| c l IH]; intros H; [exact H |]. apply IH, H.
Qed.

Lemma single_newlines_prefix (x r : str) :
  single_newlines (x ++ r) ->
  (forall a, x <> a ++ [newline]) ->
  single_newlines x.
Proof.
  induction x as [| c x IH]; intros H Hlast; [exact I |].
  destruct H as [Hc Hx]. split.
  - intros E. destruct (Hc E) as (c2 & r2 & Hr & Hc2).
    destruct x as [| c3 x].
    + subst c. now specialize (Hlast []).
    + injection Hr as <- _. now exists c3, x.
  - apply IH; [exact Hx |]. intros a ->. now apply (Hlast (c :: a)).
Qed.

Lemma lstrip_keeps_last (a : str) (c : char) :
  isspace c = false -> exists a', lstrip (a ++ [c]) = a' ++ [c].
Proof.
  intros Hc. induction a as [| x a [a' IH]]; cbn [app lstrip].
  - rewrite Hc. now exists [].
  - destruct (isspace x); [now exists a' | now exists (x :: a)].
Qed.

Lemma strip_keeps_last (a : str) (c : char) :
  isspace c = false -> exists a', strip (a ++ [c]) = a' ++ [c].
Proof.
  intros Hc. destruct (lstrip_keeps_last a c Hc) as [a' H].
  exists a'. unfold strip, rstrip. rewrite H, rev_unit. cbn [lstrip].
  rewrite Hc. cbn [rev]. now rewrite rev_involutive.
Qed.

(** The stripped text of a writable text is writable and is left as it is
    by [strip]. *)
Lemma strip_writable (t : str) :
  writable_text t -> writable_text (strip t) /\ strip t <> [].
Proof.
  intros (Hsn & _ & (a & c & Ht & Hc)).
  destruct (strip_keeps_last a c Hc) as [a' Hs]. rewrite <- Ht in Hs.
  assert (Hne : strip t <> []) by (rewrite Hs; now destruct a').
  split; [| exact Hne]. split; [| split].
  - destruct (strip_infix t) as (l & r & Hinf).
    rewrite Hinf in Hsn. apply single_newlines_suffix in Hsn.
    apply (single_newlines_prefix _ r Hsn).
    intros b Hb. apply strip_last in Hb. discriminate.
  - destruct (strip t) as [| c0 r0] eqn:E; [congruence |].
    exists c0, r0. split; [reflexivity |]. intros ->.
    now apply strip_head in E.
  - now exists a', c.
Qed.

Lemma single_newlines_join_space (l : list str) :
  Forall single_newlines l -> single_newlines (join [space] l).
Proof.
  induction 1 as [| x l Hx _ IH]; [exact I |].
  destruct l as [| y l]; [exact Hx |].
  change (join [space] (x :: y :: l))
    with (x ++ space :: join [space] (y :: l)).
  apply single_newlines_app; [exact Hx |].
  split; [discriminate | exact IH].
Qed.

Lemma constituents_writable (g : segment * list segment) :
  Forall writable (fst g :: snd g) -> writable (constituents_segment g).
Proof.
  intros Hall. destruct g as [first others]. cbn [fst snd] in Hall.
  assert (Hnb : Forall nonblank (first :: others)).
  { eapply Forall_impl; [| exact Hall]. intros s (_ & _ & Hw).
    now apply strip_writable. }
  pose proof (constituents_text_fixed (first, others) Hnb) as Hfix.
  split; [| split].
  - inversion Hall as [| ? ? (Hs & _) _]; subst. exact Hs.
  - cbn [constituents_segment end_].
    assert (Hin : In (last others first) (first :: others)).
    { destruct others as [| o others]; [now left |]. right.
      destruct (exists_last (l := o :: others) ltac:(discriminate))
        as (l' & y & E).
      rewrite E, last_last. apply in_elt. }
    rewrite Forall_forall in Hall. now destruct (Hall _ Hin) as (_ & He & _).
  - assert (Hne : text (constituents_segment (first, others)) <> []).
    { cbn [constituents_segment text map].
      destruct (join_head [space] (strip (text first))
                  (map (fun s => strip (text s)) others)) as [t Ht].
      rewrite Ht. inversion Hnb as [| ? ? Hf _]; subst.
      unfold nonblank in Hf. now destruct (strip (text first)). }
    split; [| split].
    + cbn [constituents_segment text]. apply single_newlines_join_space.
      apply Forall_map. eapply Forall_impl; [| exact Hall].
      intros s (_ & _ & Hw). now apply strip_writable.
    + destruct (text (constituents_segment (first, others)))
        as [| c r] eqn:E; [congruence |].
      exists c, r. split; [reflexivity |]. intros ->.
      now apply strip_head in Hfix.
    + destruct (exists_last Hne) as (a & c & E). exists a, c.
      split; [exact E |]. rewrite E in Hfix. now apply strip_last in Hfix.
Qed.

Lemma merge_captions_writable (max_chars : Z) (max_gap : Q)
  (segments : list segment) :
  Forall writable segments ->
  Forall writable (merge_captions max_chars max_gap segments).
Proof.
  intros Hall. destruct segments as [| first rest]; [constructor |].
  destruct (merge_captions_groups_strong max_chars max_gap first rest)
    as (groups & Hflat & Hout & _ & _).
  rewrite Hout. rewrite <- Hflat in Hall. apply flatten_members in Hall.
  apply Forall_map. eapply Forall_impl; [| exact Hall].
  intros g Hg. now apply constituents_writable.
Qed.



(** * The timing line, again *)

(** X23: the parser takes two tokens from a timing line exactly when the
    line begins with a non-empty run without whitespace, whitespace, the
    arrow [-->], whitespace and a second such run; the tokens are the two
    runs, the second one going up to the next whitespace or the end of
    the line, so that a line has at most one pair of tokens. *)
Theorem timing_pattern_tokens :
  forall line : str,
    (forall start_ts end_ts,
        match_timing line = Some (start_ts, end_ts)
        <-> timing_shape line start_ts end_ts)
    /\ (match_timing line = None
        <-> forall start_ts end_ts, ~ timing_shape line start_ts end_ts)
    /\ (forall a b a' b',
           timing_shape line a b -> timing_shape line a' b' ->
           a = a' /\ b = b').
Proof.
  intros line. split; [| split].
  - intros start_ts end_ts. apply match_timing_shape.
  - apply match_timing_none.
  - intros a b a' b' H H'.
    apply match_timing_shape in H, H'. rewrite H in H'.
    injection H' as <- <-. auto.
Qed.

Lemma timing_pattern_tokens_witness :
  timing_shape (lit "00:00:01,200   -->  00:00:02,000 X1:40%")
    (lit "00:00:01,200") (lit "00:00:02,000").
Proof.
  apply (proj1 (timing_pattern_tokens _) _ _). vm_compute. reflexivity.
Defined.

Lemma select_best_is_maximal_witness :
  exists result,
    select_best sample_transliterate (lit "ka") [ITRANS; HK; IAST]
    = Returned result
    /\ (devanagari_count [0x0917; 0x0918]%N <= devanagari_count result)%nat.
Proof.
  destruct (select_best_is_maximal sample_transliterate (lit "ka")
              [ITRANS; HK; IAST]) as (result & Hr & _ & Hmax).
  exists result. split; [exact Hr |].
  apply (Hmax IAST); [cbn; tauto | reflexivity].
Defined.

Lemma extract_video_id_sound_and_complete_witness :
  valid_id (lit "dQw4w9WgXcQ")
  /\ exists marker,
      In marker id_markers
      /\ id_after marker (lit "https://youtu.be/dQw4w9WgXcQ")
           (lit "dQw4w9WgXcQ").
Proof.
  apply (proj1 (extract_video_id_sound_and_complete
                  (lit "https://youtu.be/dQw4w9WgXcQ"))).
  vm_compute. reflexivity.
Defined.
